(** * community-bot: playground links, code-block lookup and rendering

    A shallow embedding of [src/modules/playground.ts] and
    [src/util/findCodeblockFromChannel.ts].

    JavaScript strings are sequences of UTF-16 code units, so a string
    is a [list N]; [length] is the JavaScript [.length].  A JavaScript
    number is NaN, an infinity or a rational, and arithmetic is exact,
    which is what binary64 gives on the offsets and lengths the code
    computes with.  Fractions and very large literals stay exact where
    binary64 would round, and the sign of zero is not kept; no property
    below depends on either. *)

From Stdlib Require Import Ascii String.
From Stdlib Require Import List Bool Arith ZArith NArith QArith Qround Lia.
Import ListNotations.

(* ================================================================== *)
(** ** Strings as lists of UTF-16 code units *)
(* ================================================================== *)

Definition code_unit := N.
Definition jsstring := list code_unit.

(** A literal written with ASCII characters only. *)
Definition js (s : string) : jsstring :=
  List.map N_of_ascii (list_ascii_of_string s).

Definition LF : code_unit := 10%N.
Definition BACKTICK : code_unit := 96%N.
(** U+200B ZERO WIDTH SPACE and U+2026 HORIZONTAL ELLIPSIS. *)
Definition ZWSP : code_unit := 8203%N.
Definition ELLIPSIS : code_unit := 8230%N.

Definition jsstring_eqb (a b : jsstring) : bool :=
  if list_eq_dec N.eq_dec a b then true else false.

(** [s.length] as an integer. *)
Definition len {A : Type} (s : list A) : Z := Z.of_nat (length s).

(* ================================================================== *)
(** ** Numbers *)
(* ================================================================== *)

Inductive number : Type :=
| NaN
| NegInf
| Fin (q : Q)
| PosInf.

Definition FinZ (z : Z) : number := Fin (inject_Z z).

(** [undefined] converted to a number is NaN. *)
Definition ToNumber (v : option Z) : number :=
  match v with
  | None => NaN
  | Some z => FinZ z
  end.

Definition number_opp (a : number) : number :=
  match a with
  | NaN => NaN
  | NegInf => PosInf
  | Fin q => Fin (Qopp q)
  | PosInf => NegInf
  end.

Definition number_add (a b : number) : number :=
  match a, b with
  | NaN, _ | _, NaN => NaN
  | PosInf, NegInf | NegInf, PosInf => NaN
  | PosInf, _ | _, PosInf => PosInf
  | NegInf, _ | _, NegInf => NegInf
  | Fin x, Fin y => Fin (Qplus x y)
  end.

Definition number_sub (a b : number) : number := number_add a (number_opp b).

(** [a < b]; false as soon as one side is NaN. *)
Definition number_ltb (a b : number) : bool :=
  match a, b with
  | NaN, _ | _, NaN => false
  | _, NegInf => false
  | NegInf, _ => true
  | PosInf, _ => false
  | Fin _, PosInf => true
  | Fin x, Fin y => match Qcompare x y with Lt => true | _ => false end
  end.

(** [a <= b]; false as soon as one side is NaN. *)
Definition number_leb (a b : number) : bool :=
  match a, b with
  | NaN, _ | _, NaN => false
  | NegInf, _ => true
  | _, PosInf => true
  | _, NegInf => false
  | PosInf, _ => false
  | Fin x, Fin y => match Qcompare x y with Gt => false | _ => true end
  end.

(** [Math.min(a, b)]. *)
Definition Math_min (a b : number) : number :=
  match a, b with
  | NaN, _ | _, NaN => NaN
  | _, _ => if number_ltb b a then b else a
  end.

(** Truthiness of a number: [0] and [NaN] are falsy. *)
Definition number_truthy (a : number) : bool :=
  match a with
  | NaN => false
  | Fin q => negb (Qeq_bool q 0)
  | _ => true
  end.

(** [v ?? d] *)
Definition nullish {A : Type} (v : option A) (d : A) : A :=
  match v with
  | Some x => x
  | None => d
  end.

(** Truncation towards zero of a rational. *)
Definition Qtrunc (q : Q) : Z := Z.quot (Qnum q) (Zpos (Qden q)).

Definition Q_is_integer (q : Q) : bool :=
  (Z.rem (Qnum q) (Zpos (Qden q)) =? 0)%Z.

(** [arr[n]] for a number [n]: defined on the integer indices below
    [arr.length], [undefined] everywhere else. *)
Definition array_get {A : Type} (arr : list A) (n : number) : option A :=
  match n with
  | Fin q =>
      if Q_is_integer q && (0 <=? Qnum q)%Z
      then nth_error arr (Z.to_nat (Qtrunc q))
      else None
  | _ => None
  end.

(** The clamping of [String.prototype.slice]: an argument is truncated
    to an integer (NaN gives 0), a negative one counts from the end,
    and the result is kept inside [0 .. size]. *)
Definition rel_index (size : Z) (n : number) : Z :=
  match n with
  | NaN => 0
  | NegInf => 0
  | PosInf => size
  | Fin q =>
      let i := Qtrunc q in
      if (i <? 0)%Z then Z.max (size + i) 0 else Z.min i size
  end.

(** [s.slice(start, end)]; each argument is a number or [undefined]. *)
Definition String_slice {A : Type} (s : list A)
    (start end_ : option number) : list A :=
  let size := len s in
  let from := match start with None => 0%Z | Some n => rel_index size n end in
  let to := match end_ with None => size | Some n => rel_index size n end in
  firstn (Z.to_nat (Z.max (to - from) 0)) (skipn (Z.to_nat from) s).

(* ================================================================== *)
(** ** findCodeblockFromChannel.ts: escapeCode and makeCodeBlock *)
(* ================================================================== *)

Definition is_backtick (c : code_unit) : bool := (c =? BACKTICK)%N.

(** [code.replace(/`(?=`)/g, '`\u200B')]: every backtick that is directly
    followed by a backtick is replaced by a backtick and U+200B; the
    look-ahead consumes nothing, so the scan resumes at the next unit. *)
Fixpoint escapeCode (code : jsstring) : jsstring :=
  match code with
  | [] => []
  | c :: rest =>
      if is_backtick c &&
         match rest with c' :: _ => is_backtick c' | [] => false end
      then BACKTICK :: ZWSP :: escapeCode rest
      else c :: escapeCode rest
  end.

Definition CODEBLOCK : jsstring := js "```".
Definition DISCORD_MAX_LENGTH : Z := 2048.
Definition MAX_CODE_LENGTH : Z :=
  DISCORD_MAX_LENGTH - len (CODEBLOCK ++ js "ts" ++ [LF] ++ CODEBLOCK).

Definition makeCodeBlock (code : jsstring) : jsstring :=
  let escaped := escapeCode code in
  let truncated :=
    if (MAX_CODE_LENGTH <? len escaped)%Z
    then String_slice escaped (Some (FinZ 0)) (Some (FinZ (MAX_CODE_LENGTH - 1)))
           ++ [ELLIPSIS]
    else escaped in
  CODEBLOCK ++ js "ts" ++ [LF] ++ truncated ++ CODEBLOCK.

(* ================================================================== *)
(** ** Library functions used by playground.ts *)
(* ================================================================== *)

(** [s.split(sep)] for a one-unit separator. *)
Fixpoint String_split (sep : code_unit) (s : jsstring) : list jsstring :=
  match s with
  | [] => [[]]
  | c :: rest =>
      if (c =? sep)%N then [] :: String_split sep rest
      else match String_split sep rest with
           | l :: ls => (c :: l) :: ls
           | [] => [[c]]
           end
  end.

(** [arr.reduce((acc, x, i) => f(acc, x, i), init)] *)
Definition Array_reduce {A B : Type} (f : B -> A -> nat -> B)
    (arr : list A) (init : B) : B :=
  fold_left (fun acc ix => f acc (snd ix) (fst ix))
            (combine (seq 0 (length arr)) arr) init.

(** [arr.find(p)] *)
Definition Array_find {A : Type} (p : A -> bool) (arr : list A) : option A :=
  List.find p arr.

(** Insertion of [x] into an already ordered array: [x] moves in front
    of the first element it compares strictly below.  A comparator
    result that is NaN or zero leaves the two elements in their order. *)
Fixpoint sort_insert {A : Type} (cmp : A -> A -> number) (x : A)
    (sorted : list A) : list A :=
  match sorted with
  | [] => [x]
  | y :: rest =>
      if number_ltb (cmp x y) (FinZ 0) then x :: y :: rest
      else y :: sort_insert cmp x rest
  end.

(** [arr.sort(cmp)]: the stable insertion sort engines use for short
    arrays. *)
Definition Array_sort {A : Type} (cmp : A -> A -> number)
    (arr : list A) : list A :=
  fold_left (fun sorted x => sort_insert cmp x sorted) arr [].

(** *** Number(string) *)

(** White space and line terminators, as [\s] and string-to-number
    trimming understand them. *)
Definition is_space (c : code_unit) : bool :=
  ((9 <=? c) && (c <=? 13) || (c =? 32) || (c =? 160) || (c =? 5760)
   || (8192 <=? c) && (c <=? 8202) || (c =? 8232) || (c =? 8233)
   || (c =? 8239) || (c =? 8287) || (c =? 12288) || (c =? 65279))%N.

Fixpoint trim_start (s : jsstring) : jsstring :=
  match s with
  | c :: rest => if is_space c then trim_start rest else s
  | [] => []
  end.

Definition trim (s : jsstring) : jsstring :=
  rev (trim_start (rev (trim_start s))).

Definition is_digit (c : code_unit) : bool := ((48 <=? c) && (c <=? 57))%N.

(** Value of a digit in the given base, letters standing for 10..35. *)
Definition digit_value (base : Z) (c : code_unit) : option Z :=
  let v :=
    if is_digit c then Some (Z.of_N c - 48)%Z
    else if ((97 <=? c) && (c <=? 122))%N then Some (Z.of_N c - 87)%Z
    else if ((65 <=? c) && (c <=? 90))%N then Some (Z.of_N c - 55)%Z
    else None in
  match v with
  | Some d => if (d <? base)%Z then Some d else None
  | None => None
  end.

Fixpoint digits_value (base : Z) (acc : Z) (s : jsstring) : option Z :=
  match s with
  | [] => Some acc
  | c :: rest =>
      match digit_value base c with
      | Some d => digits_value base (acc * base + d)%Z rest
      | None => None
      end
  end.

(** Longest prefix of units satisfying [p], and the remainder. *)
Fixpoint span (p : code_unit -> bool) (s : jsstring) : jsstring * jsstring :=
  match s with
  | c :: rest =>
      if p c then let (a, b) := span p rest in (c :: a, b) else ([], s)
  | [] => ([], [])
  end.

(** An optional sign: [(negative, rest)]. *)
Definition read_sign (s : jsstring) : bool * jsstring :=
  match s with
  | 43%N :: rest => (false, rest)
  | 45%N :: rest => (true, rest)
  | _ => (false, s)
  end.

(** [m * 10^e] as a rational. *)
Definition scale10 (m e : Z) : Q :=
  match e with
  | Zneg p => Qmake m (Pos.pow 10 p)
  | _ => inject_Z (m * 10 ^ e)
  end.

(** The exponent part of a decimal literal: empty, or [e]/[E], an
    optional sign and at least one digit, up to the end of the string. *)
Definition read_exponent (s : jsstring) : option Z :=
  match s with
  | [] => Some 0%Z
  | c :: rest =>
      if ((c =? 101) || (c =? 69))%N then
        let (neg, ds) := read_sign rest in
        match ds, digits_value 10 0 ds with
        | _ :: _, Some e => Some (if neg then (- e)%Z else e)
        | _, _ => None
        end
      else None
  end.

(** An unsigned decimal literal: digits, an optional fraction and an
    optional exponent, with a digit on at least one side of the dot. *)
Definition read_decimal (s : jsstring) : option Q :=
  let (ip, r1) := span is_digit s in
  let '(fp, r2) :=
    match r1 with
    | 46%N :: r => span is_digit r
    | _ => ([], r1)
    end in
  match ip ++ fp, digits_value 10 0 (ip ++ fp), read_exponent r2 with
  | _ :: _, Some m, Some e => Some (scale10 m (e - len fp))
  | _, _, _ => None
  end.

(** A [0x], [0o] or [0b] literal. *)
Definition read_radix (s : jsstring) : option Q :=
  match s with
  | 48%N :: c :: (_ :: _) as ds =>
      let base :=
        if ((c =? 120) || (c =? 88))%N then Some 16%Z
        else if ((c =? 111) || (c =? 79))%N then Some 8%Z
        else if ((c =? 98) || (c =? 66))%N then Some 2%Z
        else None in
      match base with
      | Some b => option_map inject_Z (digits_value b 0 ds)
      | None => None
      end
  | _ => None
  end.

(** [Number(s)]: the string-to-number conversion.  Surrounding white
    space is dropped; the empty string is 0; anything that is not a
    numeric literal is NaN.  The value of a literal is kept exact: the
    rounding to the nearest double, which the engine applies to a
    literal of more than 15 digits or so, is left out. *)
Definition Number (s : jsstring) : number :=
  let t := trim s in
  match t with
  | [] => FinZ 0
  | _ =>
      match read_radix t with
      | Some q => Fin q
      | None =>
          let (neg, u) := read_sign t in
          if jsstring_eqb u (js "Infinity")
          then (if neg then NegInf else PosInf)
          else match read_decimal u with
               | Some q => Fin (if neg then Qopp q else q)
               | None => NaN
               end
      end
  end.

(** [a === b] on numbers: NaN is equal to nothing, itself included. *)
Definition number_strict_equal (a b : number) : bool :=
  match a, b with
  | NaN, _ | _, NaN => false
  | NegInf, NegInf | PosInf, PosInf => true
  | Fin x, Fin y => Qeq_bool x y
  | _, _ => false
  end.

(** *** URLSearchParams *)

Definition URLSearchParams := list (jsstring * jsstring).

Definition hex_pair (a b : code_unit) : option N :=
  match digit_value 16 a, digit_value 16 b with
  | Some x, Some y => Some (Z.to_N (x * 16 + y))
  | _, _ => None
  end.

(** Form decoding of a name or a value: [+] is a space and [%XX] is
    the byte XX.  Only escapes of ASCII bytes are decoded to their
    character.  A byte from 0x80 up becomes U+FFFD, which is what the
    UTF-8 decoder yields outside a well-formed sequence; the decoding
    of a well-formed sequence of several bytes to its one character is
    left out. *)
Fixpoint form_decode (s : jsstring) : jsstring :=
  match s with
  | [] => []
  | c :: rest =>
      if (c =? 43)%N then 32%N :: form_decode rest
      else if (c =? 37)%N then
        match rest with
        | a :: b :: rest' =>
            match hex_pair a b with
            | Some byte =>
                (if (byte <? 128)%N then byte else 65533%N)
                  :: form_decode rest'
            | None => c :: form_decode rest
            end
        | _ => c :: form_decode rest
        end
      else c :: form_decode rest
  end.

(** Name and value of one [name=value] piece, cut at the first [=]. *)
Definition split_pair (piece : jsstring) : jsstring * jsstring :=
  let (name, r) := span (fun c => negb (c =? 61)%N) piece in
  (form_decode name, form_decode (tl r)).

(** [new URLSearchParams(init)] *)
Definition URLSearchParams_new (init : jsstring) : URLSearchParams :=
  let body := match init with 63%N :: rest => rest | _ => init end in
  List.map split_pair
    (List.filter (fun piece => negb (jsstring_eqb piece []))
                 (String_split 38%N body)).

(** [params.get(name)]: the first value of that name, or [null]. *)
Fixpoint URLSearchParams_get (params : URLSearchParams) (name : jsstring)
    : option jsstring :=
  match params with
  | [] => None
  | (n, v) :: rest =>
      if jsstring_eqb n name then Some v else URLSearchParams_get rest name
  end.

(* ================================================================== *)
(** ** playground.ts: selection decoding *)
(* ================================================================== *)

Definition MAX_EMBED_LENGTH : Z := 512.
Definition DEFAULT_EMBED_LENGTH : Z := 256.

(** [getPosFromPGURLParam(params, name)]; the result is a number or
    [undefined].  The test [n === NaN] is kept as the source has it. *)
Definition getPosFromPGURLParam (params : URLSearchParams) (name : jsstring)
    : option number :=
  match URLSearchParams_get params name with
  | None => None
  | Some p =>
      let n := Number p in
      if number_strict_equal n NaN || number_ltb n (FinZ 1)
      then None
      else Some (number_sub n (FinZ 1))
  end.

(** A cursor or anchor position. *)
Record Position : Type := {
  line : option number;
  column : option number
}.

Record Selection : Type := {
  startLine : option number;
  startColumn : option number;
  endLine : option number;
  endColumn : option number
}.

(** The comparator [(a, b) => (a.line ?? 0) - (b.line ?? 0)]. *)
Definition by_line (a b : Position) : number :=
  number_sub (nullish (line a) (FinZ 0)) (nullish (line b) (FinZ 0)).

(** The selection built from the two positions once they are ordered:
    the body of [getSelectionFromQuery] after the parameters are read. *)
Definition orderedSelection (cursorPosition selectionPosition : Position)
    : Selection :=
  match Array_sort by_line [cursorPosition; selectionPosition] with
  | [start; end_] =>
      {| startLine := line start;
         startColumn := column start;
         endLine := line end_;
         endColumn := column end_ |}
  | _ =>
      (* not reached: sorting keeps the two elements *)
      {| startLine := None; startColumn := None;
         endLine := None; endColumn := None |}
  end.

Definition getSelectionFromQuery (query : jsstring) : Selection :=
  let params := URLSearchParams_new query in
  let cursorPosition :=
    {| line := getPosFromPGURLParam params (js "pln");
       column := getPosFromPGURLParam params (js "pc") |} in
  let selectionPosition :=
    {| line := getPosFromPGURLParam params (js "ssl");
       column := getPosFromPGURLParam params (js "ssc") |} in
  orderedSelection cursorPosition selectionPosition.

(* ================================================================== *)
(** ** playground.ts: the range of the snippet *)
(* ================================================================== *)

(** The table of cumulative line lengths of [createPlaygroundEmbed]:
    it starts as [[0]] and every line pushes its length, plus the
    entry at the line's own index, plus the length of a newline.  (At
    step [i] the accumulator has [i + 1] entries, so [acc[i]] is always
    there; the default of [nth] is never used.) *)
Definition cumulativeLineLengths (unzipped : jsstring) : list Z :=
  let lines := String_split LF unzipped in
  let lineLengths := List.map (@len code_unit) lines in
  Array_reduce
    (fun acc l i => acc ++ [(l + nth i acc 0 + len [LF])%Z])
    lineLengths [0%Z].

(** What is thrown: an [Error] with its message, as [new Error(message)]
    makes it and as the libraries throw them, or a [TypeError] of the
    engine, whose message is the engine's own and is left out. *)
Inductive exception : Type :=
| Error (message : jsstring)
| TypeError.

(** The result of a call that may throw or, behind [await], reject. *)
Inductive outcome (A : Type) : Type :=
| Returned (value : A)
| Thrown (error : exception).

Arguments Returned {A} value.
Arguments Thrown {A} error.

(** The code formatter: [format(text, {..., rangeStart, rangeEnd})]
    gives the whole text back with the range reformatted, or throws,
    as it does on a text it cannot parse.  Each bound is a character
    offset or [undefined]. *)
Class Formatter : Type := {
  format : jsstring -> option Z -> option Z -> outcome jsstring
}.

(** The quantities [createPlaygroundEmbed] computes between the table
    and the call of the formatter.  The end of the range is [endLine ?
    cll[endLine] : cll.find(len => len > cutoff) ?? cll[cll.length - 1]],
    the condition being the truthiness of [endLine]. *)
Record Range : Type := {
  startChar : option Z;
  cutoff : number;
  endChar : option Z
}.

Definition rangeOf (unzipped : jsstring) (selection : Selection) : Range :=
  let cll := cumulativeLineLengths unzipped in
  let startChar := array_get cll (nullish (startLine selection) (FinZ 0)) in
  let cutoff :=
    Math_min (number_add (ToNumber startChar) (FinZ DEFAULT_EMBED_LENGTH))
             (FinZ (len unzipped)) in
  let byDefault :=
    match Array_find (fun l => number_ltb cutoff (FinZ l)) cll with
    | Some l => Some l
    | None => array_get cll (FinZ (len cll - 1))
    end in
  let endChar :=
    match endLine selection with
    | Some l => if number_truthy l then array_get cll l else byDefault
    | None => byDefault
    end in
  {| startChar := startChar; cutoff := cutoff; endChar := endChar |}.

(** The quantities [createPlaygroundEmbed] computes once the formatter
    has returned. *)
Record Snippet : Type := {
  pretty : jsstring;
  prettyEnd : number;
  maxEnd : number;
  extract : jsstring
}.

(** From the formatted text to the extract. *)
Definition snippetFrom (unzipped : jsstring) (range : Range) (pretty : jsstring)
    : Snippet :=
  let prettyEnd :=
    number_sub (FinZ (len pretty))
               (number_sub (FinZ (len unzipped)) (ToNumber (endChar range))) in
  let maxEnd :=
    Math_min prettyEnd
             (number_add (ToNumber (startChar range)) (FinZ MAX_EMBED_LENGTH)) in
  let extract :=
    String_slice pretty (option_map FinZ (startChar range)) (Some maxEnd) in
  {| pretty := pretty; prettyEnd := prettyEnd; maxEnd := maxEnd;
     extract := extract |}.

(** The call of the formatter on the range and what follows it; a
    throw of the formatter passes through. *)
Definition snippetOf `{Formatter} (unzipped : jsstring) (selection : Selection)
    : outcome Snippet :=
  let range := rangeOf unzipped selection in
  match format unzipped (startChar range) (endChar range) with
  | Thrown error => Thrown error
  | Returned pretty => Returned (snippetFrom unzipped range pretty)
  end.

(* ================================================================== *)
(** ** Regular expressions *)
(* ================================================================== *)

(** The fragment of the regular-expression language the two patterns
    of the bot are written in, matched the way the engine does it: by
    backtracking, the left alternative and the longer repetition
    first. *)
Inductive regex : Type :=
| Eps
| Chr (p : code_unit -> bool)
| Seq (r1 r2 : regex)
| Alt (r1 r2 : regex)
| Star (r : regex)
| Group (i : nat) (r : regex).

Definition Opt (r : regex) : regex := Alt r Eps.
Definition Plus (r : regex) : regex := Seq r (Star r).
Definition Lit (s : string) : regex :=
  fold_right (fun c r => Seq (Chr (N.eqb c)) r) Eps (js s).

(** Where a match attempt stands: the offset reached, the input still
    ahead and the groups captured so far (the latest first). *)
Record mstate : Type := {
  pos : nat;
  ahead : jsstring;
  caps : list (nat * jsstring)
}.

(** [rmatch r k s] matches [r] at [s] and hands the state reached to the
    continuation [k]; when [k] fails the next way of matching [r] is
    tried.  An iteration of a star that consumes nothing is refused,
    so the length of the remaining input bounds the iterations. *)
Fixpoint rmatch (r : regex) (k : mstate -> option mstate) (s : mstate)
    : option mstate :=
  match r with
  | Eps => k s
  | Chr p =>
      match ahead s with
      | c :: rest =>
          if p c
          then k {| pos := S (pos s); ahead := rest; caps := caps s |}
          else None
      | [] => None
      end
  | Seq r1 r2 => rmatch r1 (rmatch r2 k) s
  | Alt r1 r2 =>
      match rmatch r1 k s with
      | Some s' => Some s'
      | None => rmatch r2 k s
      end
  | Star r1 =>
      (fix iterate (fuel : nat) (s : mstate) : option mstate :=
         match fuel with
         | O => k s
         | S fuel' =>
             match rmatch r1
                     (fun s' => if (pos s <? pos s')%nat
                                then iterate fuel' s' else None) s with
             | Some s' => Some s'
             | None => k s
             end
         end) (S (length (ahead s))) s
  | Group i r1 =>
      rmatch r1
        (fun s' => k {| pos := pos s'; ahead := ahead s';
                        caps := (i, firstn (pos s' - pos s) (ahead s))
                                  :: caps s' |}) s
  end.

(** The text of group [i], or [undefined] when it took no part. *)
Fixpoint capture (i : nat) (cs : list (nat * jsstring)) : option jsstring :=
  match cs with
  | [] => None
  | (j, text) :: rest => if (i =? j)%nat then Some text else capture i rest
  end.

(** The result array of a match: the matched text, then the groups. *)
Definition MatchArray := list (option jsstring).

(** [m[i]] where the group is known to have taken part in the match. *)
Definition group (m : MatchArray) (i : nat) : jsstring :=
  match nth_error m i with
  | Some (Some text) => text
  | _ => []
  end.

Fixpoint exec_from (r : regex) (groups : nat) (start : nat) (s : jsstring)
    : option MatchArray :=
  match rmatch r Some {| pos := start; ahead := s; caps := [] |} with
  | Some s' =>
      Some (Some (firstn (pos s' - start) s)
              :: List.map (fun i => capture i (caps s')) (seq 1 groups))
  | None =>
      match s with
      | [] => None
      | _ :: rest => exec_from r groups (S start) rest
      end
  end.

(** A pattern with the number of its groups. *)
Record RegExp : Type := {
  source : regex;
  groups : nat
}.

(** [re.exec(s)] and [s.match(re)] for a pattern without the [g] flag:
    the leftmost match, or [null]. *)
Definition RegExp_exec (re : RegExp) (s : jsstring) : option MatchArray :=
  exec_from (source re) (groups re) 0 s.

Definition any_unit (c : code_unit) : bool := true.

(** [\w] *)
Definition is_word (c : code_unit) : bool :=
  ((97 <=? c) && (c <=? 122) || (65 <=? c) && (c <=? 90)
   || is_digit c || (c =? 95))%N.

(** [[^\s#&]] *)
Definition is_param_unit (c : code_unit) : bool :=
  negb (is_space c || (c =? 35) || (c =? 38))%N.

(** [[\w\-+_]] *)
Definition is_payload_unit (c : code_unit) : bool :=
  (is_word c || (c =? 45) || (c =? 43) || (c =? 95))%N.

(** [/```(?:ts|typescript)?\n([\s\S]+)```/] *)
Definition CODEBLOCK_REGEX : RegExp :=
  {| source :=
       Seq (Lit "```")
      (Seq (Opt (Alt (Lit "ts") (Lit "typescript")))
      (Seq (Chr (N.eqb LF))
      (Seq (Group 1 (Plus (Chr any_unit)))
           (Lit "```"))));
     groups := 1 |}.

(** [\w+=[^\s#&]+] *)
Definition param : regex :=
  Seq (Plus (Chr is_word)) (Seq (Lit "=") (Plus (Chr is_param_unit))).

(** [={0,4}] *)
Definition upto4 (r : regex) : regex :=
  Opt (Seq r (Opt (Seq r (Opt (Seq r (Opt r)))))).

(** The pattern of a playground link, piece by piece:
    [https?:\/\/], [(?:www\.)?], [typescriptlang\.org\/],
    [(?:play|dev\/bug-workbench)], [(?:\/index\.html)?], [\/?];
    group 1, the query: [\??], an optional parameter and any number of
    parameters each behind a [&]; [#code\/]; group 2, the payload:
    [[\w\-+_]+={0,4}]. *)
Definition PLAYGROUND_REGEX : RegExp :=
  {| source :=
       Seq (Lit "http")
      (Seq (Opt (Lit "s"))
      (Seq (Lit "://")
      (Seq (Opt (Lit "www."))
      (Seq (Lit "typescriptlang.org/")
      (Seq (Alt (Lit "play") (Lit "dev/bug-workbench"))
      (Seq (Opt (Lit "/index.html"))
      (Seq (Opt (Lit "/"))
      (Seq (Group 1
              (Seq (Opt (Lit "?"))
              (Seq (Opt param)
                   (Star (Seq (Lit "&") param)))))
      (Seq (Lit "#code/")
           (Group 2 (Seq (Plus (Chr is_payload_unit))
                         (upto4 (Lit "=")))))))))))));
     groups := 2 |}.

(* ================================================================== *)
(** ** findCodeblockFromChannel.ts: scanning the channel *)
(* ================================================================== *)

Record User : Type := {
  bot : bool;
  tag : jsstring;
  (** the mention the user is printed as inside a template string *)
  mention : jsstring
}.

Record MessageEmbed : Type := {
  title : option jsstring;
  url : option jsstring;
  embedAuthor : option jsstring;
  footer : option jsstring;
  description : option jsstring
}.

Record Message : Type := {
  id : jsstring;
  author : User;
  content : jsstring;
  embeds : list MessageEmbed
}.

(** A text channel: its messages, the newest first. *)
Definition TextChannel := list Message.

(** [channel.messages.fetch({ limit })] followed by [.array()]. *)
Definition fetch (limit : nat) (channel : TextChannel) : list Message :=
  firstn limit channel.

(** [findCodeblockFromChannel(channel, ignoreLatest)]; the result is a
    string or [undefined]. *)
Definition findCodeblockFromChannel (channel : TextChannel)
    (ignoreLatest : bool) : option jsstring :=
  let msgs := List.filter (fun msg => negb (bot (author msg)))
                          (fetch 10 channel) in
  (* msgs.shift() *)
  let msgs := if ignoreLatest then tl msgs else msgs in
  hd_error
    (List.filter (fun x => negb (jsstring_eqb x []))
       (List.map (fun x => match x with Some m => group m 1 | None => [] end)
          (List.map (fun m => RegExp_exec CODEBLOCK_REGEX (content m)) msgs))).

(** The decompressor of the link payloads; [None] is its [null]. *)
Class Compression : Type := {
  decompressFromEncodedURIComponent : jsstring -> option jsstring
}.

(** What a function returning [string | null | undefined] gives. *)
Inductive found : Type :=
| Undefined
| Null
| Text (s : jsstring).

Definition decoded `{Compression} (payload : jsstring) : found :=
  match decompressFromEncodedURIComponent payload with
  | Some s => Text s
  | None => Null
  end.

(** The inner loop of [findCodeFromChannel] over the embeds of one
    message: [Some] is a [return], [None] falls out of the loop. *)
Fixpoint scanEmbeds `{Compression} (es : list MessageEmbed) : option found :=
  match es with
  | [] => None
  | embed :: rest =>
      match url embed with
      | Some u =>
          match RegExp_exec PLAYGROUND_REGEX u with
          | Some m => Some (decoded (group m 1))
          | None => scanEmbeds rest
          end
      | None => scanEmbeds rest
      end
  end.

(** One turn of the outer loop of [findCodeFromChannel]. *)
Definition scanMessage `{Compression} (msg : Message) : option found :=
  let fenced :=
    if negb (bot (author msg)) then
      match RegExp_exec CODEBLOCK_REGEX (content msg) with
      | Some m => if (0 <? len (group m 1))%Z then Some (Text (group m 1))
                  else None
      | None => None
      end
    else None in
  match fenced with
  | Some r => Some r
  | None =>
      match RegExp_exec PLAYGROUND_REGEX (content msg) with
      | Some m => Some (decoded (group m 1))
      | None => scanEmbeds (embeds msg)
      end
  end.

Fixpoint scanMessages `{Compression} (msgs : list Message) : found :=
  match msgs with
  | [] => Undefined
  | msg :: rest =>
      match scanMessage msg with
      | Some r => r
      | None => scanMessages rest
      end
  end.

(** [findCodeFromChannel(channel)] *)
Definition findCodeFromChannel `{Compression} (channel : TextChannel)
    : found :=
  scanMessages (fetch 10 channel).

(* ================================================================== *)
(** ** playground.ts: the embed *)
(* ================================================================== *)

(** [embed.setDescription(text)] *)
Definition setDescription (embed : MessageEmbed) (text : jsstring)
    : MessageEmbed :=
  {| title := title embed;
     url := url embed;
     embedAuthor := embedAuthor embed;
     footer := footer embed;
     description := Some text |}.

(** [createPlaygroundEmbed(author, [_url, query, code], url = _url)].
    The colour and the avatar of the embed are left out.  A throw of
    the formatter passes through: no embed is returned then. *)
Definition createPlaygroundEmbed `{Compression} `{Formatter}
    (author : User) (exec : MatchArray) (url : option jsstring)
    : outcome MessageEmbed :=
  let _url := group exec 0 in
  let query := group exec 1 in
  let code := group exec 2 in
  let embed :=
    {| title := Some (js "Shortened Playground Link");
       url := Some (nullish url _url);
       embedAuthor := Some (tag author);
       footer := Some (js "You can choose specific lines to embed by selecting them before copying the link.");
       description := None |} in
  match decompressFromEncodedURIComponent code with
  | None | Some [] => Returned embed
  | Some unzipped =>
      let selection := getSelectionFromQuery query in
      match snippetOf unzipped selection with
      | Thrown error => Thrown error
      | Returned snippet =>
          Returned (setDescription embed (makeCodeBlock (extract snippet)))
      end
  end.

(* ================================================================== *)
(** ** The cache of replies *)
(* ================================================================== *)

(** Modelled from the spec: [LimitedSizeMap] of [src/util/limitedSizeMap.ts],
    which is not among the sources.  A mapping with a capacity fixed at
    construction, kept in insertion order, the oldest entry first.
    [set] inserts or overwrites; overwriting keeps the position of the
    key; when the number of keys exceeds the capacity after an
    insertion the oldest key is evicted.  [get], [has] and [delete] are
    those of a mapping and never fail. *)
Record LimitedSizeMap (V : Type) : Type := {
  maxSize : nat;
  entries : list (jsstring * V)
}.

Arguments maxSize {V} _.
Arguments entries {V} _.

Section LimitedSizeMap.
Variable V : Type.

Fixpoint assoc_get (l : list (jsstring * V)) (key : jsstring) : option V :=
  match l with
  | [] => None
  | (k, v) :: rest => if jsstring_eqb k key then Some v else assoc_get rest key
  end.

Fixpoint assoc_put (l : list (jsstring * V)) (key : jsstring) (value : V)
    : list (jsstring * V) :=
  match l with
  | [] => [(key, value)]
  | (k, v) :: rest =>
      if jsstring_eqb k key then (k, value) :: rest
      else (k, v) :: assoc_put rest key value
  end.

Definition assoc_remove (l : list (jsstring * V)) (key : jsstring)
    : list (jsstring * V) :=
  List.filter (fun kv => negb (jsstring_eqb (fst kv) key)) l.

Definition LimitedSizeMap_new (capacity : nat) : LimitedSizeMap V :=
  {| maxSize := capacity; entries := [] |}.

Definition LimitedSizeMap_get (m : LimitedSizeMap V) (key : jsstring)
    : option V :=
  assoc_get (entries m) key.

Definition LimitedSizeMap_has (m : LimitedSizeMap V) (key : jsstring) : bool :=
  match LimitedSizeMap_get m key with
  | Some _ => true
  | None => false
  end.

Definition LimitedSizeMap_delete (m : LimitedSizeMap V) (key : jsstring)
    : LimitedSizeMap V :=
  {| maxSize := maxSize m; entries := assoc_remove (entries m) key |}.

Definition LimitedSizeMap_set (m : LimitedSizeMap V) (key : jsstring)
    (value : V) : LimitedSizeMap V :=
  let es := assoc_put (entries m) key value in
  {| maxSize := maxSize m;
     entries := if (maxSize m <? length es)%nat then tl es else es |}.
End LimitedSizeMap.

Arguments assoc_get {V} l key.
Arguments assoc_put {V} l key value.
Arguments assoc_remove {V} l key.
Arguments LimitedSizeMap_new {V} capacity.
Arguments LimitedSizeMap_get {V} m key.
Arguments LimitedSizeMap_has {V} m key.
Arguments LimitedSizeMap_delete {V} m key.
Arguments LimitedSizeMap_set {V} m key value.

(* ================================================================== *)
(** ** playground.ts: the listeners *)
(* ================================================================== *)

(** A message the bot has sent. *)
Record Reply : Type := {
  replyContent : jsstring;
  replyEmbed : option MessageEmbed
}.

(** What the listeners act on: the cache [editedLongLink], whose values
    refer to messages of the bot; the messages the bot has sent, a
    reference being the rank of a message in this list; and the
    messages it has deleted.  Discord is taken to carry out what it is
    asked: to send, to edit and to delete never fail. *)
Record World : Type := {
  editedLongLink : LimitedSizeMap nat;
  sent : list Reply;
  deleted : list jsstring
}.

(** [botMsg.edit(content)] *)
Fixpoint editReply (ref : nat) (newContent : jsstring) (rs : list Reply)
    : list Reply :=
  match rs, ref with
  | [], _ => []
  | r :: rest, O =>
      {| replyContent := newContent; replyEmbed := replyEmbed r |} :: rest
  | r :: rest, S ref' => r :: editReply ref' newContent rest
  end.


Definition is_some {A : Type} (v : option A) : bool :=
  match v with
  | Some _ => true
  | None => false
  end.

(** The listener of the [message] event for links written in a
    message.  When [createPlaygroundEmbed] throws, the listener throws
    with it, before anything is sent. *)
Definition onPlaygroundLinkMessage `{Compression} `{Formatter}
    (w : World) (msg : Message) : outcome World :=
  if bot (author msg) then Returned w
  else
    match RegExp_exec PLAYGROUND_REGEX (content msg) with
    | None => Returned w
    | Some exec =>
        match createPlaygroundEmbed (author msg) exec None with
        | Thrown error => Thrown error
        | Returned embed =>
            if jsstring_eqb (group exec 0) (content msg) then
              (* the message only contained the link *)
              Returned
                {| editedLongLink := editedLongLink w;
                   sent := sent w ++ [{| replyContent := [];
                                         replyEmbed := Some embed |}];
                   deleted := id msg :: deleted w |}
            else
              (* the message also contained other characters *)
              let botMsg := length (sent w) in
              Returned
                {| editedLongLink :=
                     LimitedSizeMap_set (editedLongLink w) (id msg) botMsg;
                   sent := sent w ++
                     [{| replyContent :=
                           mention (author msg) ++
                           js " Here's a shortened URL of your playground link! You can remove the full link from your message.";
                         replyEmbed := Some embed |}];
                   deleted := deleted w |}
        end
    end.

(** The listener of the [messageUpdate] event: [onLongFix(_oldMsg, msg)],
    once a partial message has been fetched in full. *)
Definition onLongFix (w : World) (_oldMsg msg : Message) : World :=
  let exec := RegExp_exec PLAYGROUND_REGEX (content msg) in
  if bot (author msg)
     || negb (LimitedSizeMap_has (editedLongLink w) (id msg))
     || is_some exec
  then w
  else
    let botMsg := LimitedSizeMap_get (editedLongLink w) (id msg) in
    (* botMsg?.edit('') *)
    let sent' :=
      match botMsg with
      | Some ref => editReply ref [] (sent w)
      | None => sent w
      end in
    {| editedLongLink := LimitedSizeMap_delete (editedLongLink w) (id msg);
       sent := sent';
       deleted := deleted w |}.

(* ================================================================== *)
(** ** Notions used to state the properties *)
(* ================================================================== *)

(** Two backticks next to each other somewhere in [s]. *)
Fixpoint adjacent_backticks (s : jsstring) : bool :=
  match s with
  | c :: (c' :: _) as rest =>
      is_backtick c && is_backtick c' || adjacent_backticks rest
  | _ => false
  end.

(** [s] with every U+200B deleted. *)
Definition delete_ZWSP (s : jsstring) : jsstring :=
  List.filter (fun c => negb (c =? ZWSP)%N) s.

(** [pat] occurs in [s] at offset [i]. *)
Definition occurs_at (pat s : jsstring) (i : nat) : Prop :=
  firstn (length pat) (skipn i s) = pat.

(** The offset at which the closing fence of a code block starts. *)
Definition closing_fence (block : jsstring) : nat :=
  length block - length CODEBLOCK.

(** A table of offsets that never goes down. *)
Definition nondecreasing (t : list Z) : Prop :=
  forall i j a b,
    (i <= j)%nat -> nth_error t i = Some a -> nth_error t j = Some b ->
    (a <= b)%Z.

(** The table stated by recurrence: entry 0 is 0 and entry [i + 1] is
    entry [i] plus the length of line [i] plus 1. *)
Fixpoint offsets_from (entry : Z) (lineLengths : list Z) : list Z :=
  match lineLengths with
  | [] => []
  | l :: rest => (entry + l + 1)%Z :: offsets_from (entry + l + 1) rest
  end.

Definition LineOffsetTable (text : jsstring) : list Z :=
  0%Z :: offsets_from 0 (List.map (@len code_unit) (String_split LF text)).

(** The query [q'] carries as cursor ([pln], [pc]) the point [q]
    carries as anchor ([ssl], [ssc]), and the other way round. *)
Definition swapped_points (q q' : jsstring) : Prop :=
  let p := URLSearchParams_new q in
  let p' := URLSearchParams_new q' in
  URLSearchParams_get p' (js "pln") = URLSearchParams_get p (js "ssl") /\
  URLSearchParams_get p' (js "pc") = URLSearchParams_get p (js "ssc") /\
  URLSearchParams_get p' (js "ssl") = URLSearchParams_get p (js "pln") /\
  URLSearchParams_get p' (js "ssc") = URLSearchParams_get p (js "pc").

(** The lines of the two points of [q], an unset line counting as 0,
    are two different numbers. *)
Definition distinct_lines (q : jsstring) : Prop :=
  let p := URLSearchParams_new q in
  let a := nullish (getPosFromPGURLParam p (js "pln")) (FinZ 0) in
  let b := nullish (getPosFromPGURLParam p (js "ssl")) (FinZ 0) in
  number_ltb a b = true \/ number_ltb b a = true.

(** A selection that sits inside a text: its start line, 0 when unset,
    is an index of the table of the text; and its end line, when it is
    taken into account (set, and neither 0 nor NaN), is an index of
    the table that is not below the start line. *)
Definition selection_within (text : jsstring) (sel : Selection) : Prop :=
  let cll := cumulativeLineLengths text in
  let s := nullish (startLine sel) (FinZ 0) in
  array_get cll s <> None /\
  match endLine sel with
  | Some l =>
      number_truthy l = true ->
      array_get cll l <> None /\ number_leb s l = true
  | None => True
  end.

(** A formatted text with room for the range: it is at least as long
    as what the text holds before the start and behind the end of the
    range.  A formatter that changes the text between the two offsets
    only gives such a text. *)
Definition room_for_range (text : jsstring) (range : Range)
    (formatted : jsstring) : Prop :=
  match startChar range, endChar range with
  | Some sc, Some ec => (sc + (len text - ec) <= len formatted)%Z
  | _, _ => True
  end.

(** The formatter that leaves the text as it is. *)
Definition unchanged : Formatter :=
  {| format := fun text _ _ => Returned text |}.

(** A formatter that drops every semicolon, as the option [semi: false]
    asks for. *)
Definition without_semicolons : Formatter :=
  {| format := fun text _ _ =>
       Returned (List.filter (fun c => negb (c =? 59)%N) text) |}.

(** A formatter that can parse no text. *)
Definition refusing : Formatter :=
  {| format := fun _ _ _ => Thrown (Error (js "SyntaxError")) |}.

(** The text between the two fences of [makeCodeBlock code]. *)
Definition fenced_text (code : jsstring) : jsstring :=
  if (MAX_CODE_LENGTH <? len (escapeCode code))%Z
  then firstn (Z.to_nat (MAX_CODE_LENGTH - 1)) (escapeCode code) ++ [ELLIPSIS]
  else escapeCode code.

(** A decompressor that fails on every payload. *)
Definition failing : Compression :=
  {| decompressFromEncodedURIComponent := fun _ => None |}.

(** A decompressor that gives the payload back as the text. *)
Definition plainDecoder : Compression :=
  {| decompressFromEncodedURIComponent := fun payload => Some payload |}.

(** People and messages for the examples. *)
Definition aUser : User :=
  {| bot := false; tag := js "user#0001"; mention := js "<@1>" |}.

Definition aBot : User :=
  {| bot := true; tag := js "bot#0002"; mention := js "<@2>" |}.

Definition message (key : string) (from : User) (text : jsstring) : Message :=
  {| id := js key; author := from; content := text; embeds := [] |}.

Definition fencedText : jsstring :=
  js "```ts" ++ [LF] ++ js "const x = 1" ++ [LF] ++ js "```".

Definition linkText : jsstring :=
  js "https://www.typescriptlang.org/play#code/MYewdg".

(** A world in which the message ["1"] is tracked: the bot answered it
    with its reply number 0. *)
Definition trackingWorld : World :=
  {| editedLongLink :=
       LimitedSizeMap_set (LimitedSizeMap_new 1000) (js "1") 0%nat;
     sent := [{| replyContent := js "<@1> Here's a shortened URL";
                 replyEmbed := None |}];
     deleted := [] |}.

(* ================================================================== *)
(** ** playground.ts: the command and the attachment listener *)
(* ================================================================== *)

(** The compressor of the link payloads. *)
Class Encoder : Type := {
  compressToEncodedURIComponent : jsstring -> jsstring
}.

Definition PLAYGROUND_BASE : jsstring :=
  js "https://www.typescriptlang.org/play/#code/".

(** [sendWithMessageOwnership(msg, ...)] and [channel.send(...)]: one
    more message of the bot. *)
Definition sendReply (w : World) (r : Reply) : World :=
  {| editedLongLink := editedLongLink w;
     sent := sent w ++ [r];
     deleted := deleted w |}.

(** [!code] for [code : string | undefined]. *)
Definition no_text (code : option jsstring) : bool :=
  match code with
  | None | Some [] => true
  | Some (_ :: _) => false
  end.

(** The command [playground(msg, code?)]; [channel] is [msg.channel]. *)
Definition playground `{Encoder} (w : World) (channel : TextChannel)
    (msg : Message) (code : option jsstring) : World :=
  let viewInPlayground (code : jsstring) :=
    sendReply w
      {| replyContent := [];
         replyEmbed :=
           Some {| title := Some (js "View in Playground");
                   url := Some (PLAYGROUND_BASE
                                  ++ compressToEncodedURIComponent code);
                   embedAuthor := None;
                   footer := None;
                   description := None |} |} in
  if no_text code then
    let code := findCodeblockFromChannel channel true in
    if no_text code then
      sendReply w {| replyContent := js ":warning: couldn't find a codeblock!";
                     replyEmbed := None |}
    else viewInPlayground (nullish code [])
  else viewInPlayground (nullish code []).

(** A file attached to a message. *)
Record MessageAttachment : Type := {
  attachmentName : jsstring;
  attachmentUrl : jsstring
}.

(** A JSON value, as [response.json()] gives it. *)
#[warnings="-register-all"] Inductive JSONValue : Type :=
| JSON_null
| JSON_boolean (b : bool)
| JSON_number (n : number)
| JSON_string (s : jsstring)
| JSON_array (items : list JSONValue)
| JSON_object (members : list (jsstring * JSONValue)).

(** The member [key] of an object made by [JSON.parse]: of two members
    of one name the later one counts; [None] is [undefined]. *)
Fixpoint JSON_member (members : list (jsstring * JSONValue)) (key : jsstring)
    : option JSONValue :=
  match members with
  | [] => None
  | (k, v) :: rest =>
      match JSON_member rest key with
      | Some later => Some later
      | None => if jsstring_eqb k key then Some v else None
      end
  end.

(** [value[key]] for a JSON value other than [null]: a member of an
    object; [undefined] on a boolean, a number, a string or an array,
    for the keys read here. *)
Definition JSON_property (value : JSONValue) (key : jsstring)
    : option JSONValue :=
  match value with
  | JSON_object members => JSON_member members key
  | _ => None
  end.

(** What the listeners read from the network.  [fetchText url] is
    [fetch(url).then(r => r.text())]; [shortenerAnswer url] is the
    answer of the link shortener to the request made for [url], read
    with [response.json()].  Either throws when the request fails, the
    second also when the body is not JSON. *)
Class Network : Type := {
  fetchText : jsstring -> outcome jsstring;
  shortenerAnswer : jsstring -> outcome JSONValue
}.

(** [shortenPlaygroundLink(url)].  Taking [shortened] out of [null] by
    destructuring is a [TypeError]. *)
Definition shortenPlaygroundLink `{Network} (link : jsstring)
    : outcome jsstring :=
  match shortenerAnswer link with
  | Thrown error => Thrown error
  | Returned JSON_null => Thrown TypeError
  | Returned body =>
      match JSON_property body (js "shortened") with
      | Some (JSON_string shortened) => Returned shortened
      | _ =>
          Thrown (Error (js "Received invalid api response from link shortener"))
      end
  end.

(** The listener of the [message] event for links pasted as a file,
    [onPlaygroundLinkAttachment(msg)]; [attachments] is
    [msg.attachments].  Whatever throws does so before anything is
    sent. *)
Definition onPlaygroundLinkAttachment `{Compression} `{Formatter} `{Network}
    (w : World) (msg : Message) (attachments : list MessageAttachment)
    : outcome World :=
  let attachment :=
    List.find (fun a => jsstring_eqb (attachmentName a) (js "message.txt"))
              attachments in
  match attachment with
  | None => Returned w
  | Some attachment =>
      if bot (author msg) then Returned w
      else
        match fetchText (attachmentUrl attachment) with
        | Thrown error => Thrown error
        | Returned pasted (* [content] in the source *) =>
            match RegExp_exec PLAYGROUND_REGEX pasted with
            | None => Returned w
            | Some exec =>
                if negb (jsstring_eqb (group exec 0) pasted) then Returned w
                else
                  match shortenPlaygroundLink (group exec 0) with
                  | Thrown error => Thrown error
                  | Returned shortenedUrl =>
                      match createPlaygroundEmbed (author msg) exec
                                                  (Some shortenedUrl) with
                      | Thrown error => Thrown error
                      | Returned embed =>
                          let w' := sendReply w {| replyContent := [];
                                                   replyEmbed := Some embed |} in
                          if no_text (Some (content msg))
                          then Returned
                                 {| editedLongLink := editedLongLink w';
                                    sent := sent w';
                                    deleted := id msg :: deleted w' |}
                          else Returned w'
                      end
                  end
            end
        end
  end.

(** The world when the module is constructed:
    [editedLongLink = new LimitedSizeMap(1000)], nothing sent,
    nothing deleted. *)
Definition newWorld : World :=
  {| editedLongLink := LimitedSizeMap_new 1000; sent := []; deleted := [] |}.

(* ================================================================== *)
(** ** The worlds the handlers can be in *)
(* ================================================================== *)

Section Reachable.
Context `{Compression} `{Formatter} `{Encoder} `{Network}.

(** Discord gives a message one id and one author for good: [byBot key]
    tells whether the message of that id was written by a bot. *)
Variable byBot : jsstring -> bool.



End Reachable.

(* ================================================================== *)
(** ** Notions used to state the further properties *)
(* ================================================================== *)

(** The number of backticks of [s] that have a backtick right behind
    them. *)
Fixpoint followed_backticks (s : jsstring) : nat :=
  match s with
  | [] => 0
  | c :: rest =>
      (if is_backtick c &&
          match rest with c' :: _ => is_backtick c' | [] => false end
       then 1 else 0) + followed_backticks rest
  end.

(** [s] begins with [prefix]. *)
Definition starts_with (prefix s : jsstring) : Prop :=
  exists rest, s = prefix ++ rest.

(** [s] ends with [suffix]. *)
Definition ends_with (suffix s : jsstring) : Prop :=
  exists before, s = before ++ suffix.

(** Every reply the cache refers to has been sent. *)
Definition refs_sent (w : World) : Prop :=
  Forall (fun kv => (snd kv < length (sent w))%nat)
         (entries (editedLongLink w)).

(** The ways a pattern can take text: [spans r s s'] when [r], started
    in state [s], can stop in state [s'].  An iteration of a star has to
    move forward. *)
Inductive spans : regex -> mstate -> mstate -> Prop :=
| spans_Eps s : spans Eps s s
| spans_Chr p s c rest :
    ahead s = c :: rest -> p c = true ->
    spans (Chr p) s {| pos := S (pos s); ahead := rest; caps := caps s |}
| spans_Seq r1 r2 s s1 s2 :
    spans r1 s s1 -> spans r2 s1 s2 -> spans (Seq r1 r2) s s2
| spans_Alt_l r1 r2 s s' : spans r1 s s' -> spans (Alt r1 r2) s s'
| spans_Alt_r r1 r2 s s' : spans r2 s s' -> spans (Alt r1 r2) s s'
| spans_Star_0 r s : spans (Star r) s s
| spans_Star_S r s s1 s2 :
    spans r s s1 -> (pos s < pos s1)%nat -> spans (Star r) s1 s2 ->
    spans (Star r) s s2
| spans_Group i r s s' :
    spans r s s' ->
    spans (Group i r) s
          {| pos := pos s'; ahead := ahead s';
             caps := (i, firstn (pos s' - pos s) (ahead s)) :: caps s' |}.

(** The language tag a fence may carry. *)
Definition fence_tag (t : jsstring) : Prop :=
  t = [] \/ t = js "ts" \/ t = js "typescript".

(** [lines.join(sep)] for a one-unit separator. *)
Fixpoint String_join (sep : code_unit) (lines : list jsstring) : jsstring :=
  match lines with
  | [] => []
  | l :: rest =>
      match rest with
      | [] => l
      | _ :: _ => l ++ sep :: String_join sep rest
      end
  end.

(** A table of offsets that goes up at every step. *)
Definition increasing (t : list Z) : Prop :=
  forall i j a b,
    (i < j)%nat -> nth_error t i = Some a -> nth_error t j = Some b ->
    (a < b)%Z.

(** A pattern without groups. *)
Fixpoint group_free (r : regex) : bool :=
  match r with
  | Eps | Chr _ => true
  | Seq r1 r2 | Alt r1 r2 => group_free r1 && group_free r2
  | Star r1 => group_free r1
  | Group _ _ => false
  end.

(** Every unit a pattern can take satisfies [ok]. *)
Fixpoint within (ok : code_unit -> bool) (r : regex) : Prop :=
  match r with
  | Eps => True
  | Chr p => forall c, p c = true -> ok c = true
  | Seq r1 r2 | Alt r1 r2 => within ok r1 /\ within ok r2
  | Star r1 | Group _ r1 => within ok r1
  end.

(** The pattern of the query of a playground link: group 1 of
    [PLAYGROUND_REGEX]. *)
Definition query_pattern : regex :=
  Seq (Opt (Lit "?")) (Seq (Opt param) (Star (Seq (Lit "&") param))).

(** A unit that is neither white space nor [#]. *)
Definition plain_unit (c : code_unit) : bool :=
  negb (is_space c) && negb (c =? 35)%N.

Definition not_space (c : code_unit) : bool := negb (is_space c).


(** A message from which [findCodeFromChannel] takes nothing: no
    fenced block written by a person, no link in its text, no link in
    the URL of one of its embeds. *)
Definition nothing_to_find (msg : Message) : Prop :=
  (bot (author msg) = true \/
   RegExp_exec CODEBLOCK_REGEX (content msg) = None) /\
  RegExp_exec PLAYGROUND_REGEX (content msg) = None /\
  Forall (fun embed => match url embed with
                       | Some link => RegExp_exec PLAYGROUND_REGEX link = None
                       | None => True
                       end) (embeds msg).


(** Collaborators for the examples: a compressor that leaves the text
    as it is; a network on which every attachment holds [linkText] and
    the shortener answers with a short link; one on which it answers
    without a [shortened] member; and one on which it answers
    [null]. *)
Definition plainEncoder : Encoder :=
  {| compressToEncodedURIComponent := fun text => text |}.

Definition shortening : Network :=
  {| fetchText := fun _ => Returned linkText;
     shortenerAnswer := fun _ =>
       Returned (JSON_object
                   [(js "shortened", JSON_string (js "https://tsplay.dev/w2a1bm"))]) |}.

Definition notShortening : Network :=
  {| fetchText := fun _ => Returned linkText;
     shortenerAnswer := fun _ =>
       Returned (JSON_object [(js "error", JSON_string (js "busy"))]) |}.

Definition answeringNull : Network :=
  {| fetchText := fun _ => Returned linkText;
     shortenerAnswer := fun _ => Returned JSON_null |}.


(* ================================================================== *)
(** * Properties *)
(* ================================================================== *)

(** ** Strings and numbers *)

Lemma jsstring_eqb_eq a b : jsstring_eqb a b = true <-> a = b.
Proof.
  unfold jsstring_eqb; destruct (list_eq_dec N.eq_dec a b); split; congruence.
Qed.

Lemma jsstring_eqb_refl a : jsstring_eqb a a = true.
Proof. now apply jsstring_eqb_eq. Qed.

Lemma jsstring_eqb_neq a b : jsstring_eqb a b = false <-> a <> b.
Proof.
  unfold jsstring_eqb; destruct (list_eq_dec N.eq_dec a b); split; congruence.
Qed.

Lemma len_app {A : Type} (a b : list A) : len (a ++ b) = (len a + len b)%Z.
Proof. unfold len; rewrite length_app; lia. Qed.

Lemma len_cons {A : Type} (c : A) (s : list A) : len (c :: s) = (len s + 1)%Z.
Proof. unfold len; cbn [length]; lia. Qed.

Lemma len_nonneg {A : Type} (a : list A) : (0 <= len a)%Z.
Proof. unfold len; lia. Qed.

Lemma FinZ_add a b : number_add (FinZ a) (FinZ b) = FinZ (a + b).
Proof.
  unfold FinZ, inject_Z; simpl; unfold Qplus; simpl.
  f_equal; f_equal; lia.
Qed.

Lemma FinZ_sub a b : number_sub (FinZ a) (FinZ b) = FinZ (a - b).
Proof.
  unfold number_sub, FinZ, inject_Z; simpl; unfold Qplus; simpl.
  f_equal; f_equal; lia.
Qed.

Lemma FinZ_ltb a b : number_ltb (FinZ a) (FinZ b) = (a <? b)%Z.
Proof.
  unfold FinZ, inject_Z; simpl; unfold Qcompare; simpl.
  rewrite !Z.mul_1_r, Z.ltb_compare; reflexivity.
Qed.

Lemma FinZ_leb a b : number_leb (FinZ a) (FinZ b) = (a <=? b)%Z.
Proof.
  unfold FinZ, inject_Z; simpl; unfold Qcompare; simpl.
  rewrite !Z.mul_1_r, Z.leb_compare; destruct (a ?= b)%Z; reflexivity.
Qed.

Lemma FinZ_min a b : Math_min (FinZ a) (FinZ b) = FinZ (Z.min a b).
Proof.
  assert (H := FinZ_ltb b a). unfold Math_min, FinZ in *.
  cbv iota. rewrite H.
  destruct (Z.ltb_spec b a); f_equal; f_equal; lia.
Qed.

Lemma Qtrunc_inject z : Qtrunc (inject_Z z) = z.
Proof. unfold Qtrunc; simpl. apply Z.quot_1_r. Qed.

Lemma array_get_FinZ {A : Type} (arr : list A) z :
  array_get arr (FinZ z) =
  if (0 <=? z)%Z then nth_error arr (Z.to_nat z) else None.
Proof.
  unfold array_get, FinZ. rewrite Qtrunc_inject.
  unfold Q_is_integer; simpl. rewrite Z.rem_1_r; reflexivity.
Qed.

Lemma rel_index_FinZ size z :
  rel_index size (FinZ z) =
  if (z <? 0)%Z then Z.max (size + z) 0 else Z.min z size.
Proof. unfold rel_index, FinZ. rewrite Qtrunc_inject; reflexivity. Qed.

(** What [slice] keeps is no longer than the distance between the two
    clamped offsets. *)
Lemma String_slice_length {A : Type} (s : list A) start end_ :
  (len (String_slice s start end_) <=
   Z.max 0 ((match end_ with None => len s | Some n => rel_index (len s) n end)
            - (match start with None => 0 | Some n => rel_index (len s) n end)))%Z.
Proof.
  unfold String_slice, len. rewrite length_firstn. lia.
Qed.

(** A slice from offset 0 to an offset inside the string is a prefix. *)
Lemma String_slice_prefix {A : Type} (s : list A) n :
  (0 <= n <= len s)%Z ->
  String_slice s (Some (FinZ 0)) (Some (FinZ n)) = firstn (Z.to_nat n) s.
Proof.
  intros Hn. unfold String_slice. rewrite !rel_index_FinZ.
  destruct (Z.ltb_spec 0 0); [lia|].
  destruct (Z.ltb_spec n 0); [lia|].
  replace (Z.min 0 (len s)) with 0%Z by lia.
  simpl skipn. f_equal. lia.
Qed.

(** ** escapeCode *)

Lemma escapeCode_hd code : hd_error (escapeCode code) = hd_error code.
Proof.
  destruct code as [|c rest]; simpl; [reflexivity|].
  destruct (is_backtick c) eqn:Hc; simpl.
  - destruct rest as [|c' rest']; simpl; [reflexivity|].
    destruct (is_backtick c'); simpl; [|reflexivity].
    apply N.eqb_eq in Hc; now subst.
  - reflexivity.
Qed.

Lemma adjacent_backticks_cons c s :
  adjacent_backticks (c :: s) =
  is_backtick c && match hd_error s with Some c' => is_backtick c' | None => false end
  || adjacent_backticks s.
Proof.
  destruct s as [|c' s']; simpl.
  - now rewrite andb_false_r.
  - reflexivity.
Qed.

(** Whatever the input, the escaped text has no two backticks next to
    each other. *)
Lemma escapeCode_no_adjacent code : adjacent_backticks (escapeCode code) = false.
Proof.
  induction code as [|c rest IH]; [reflexivity|].
  cbn [escapeCode].
  destruct (is_backtick c &&
            match rest with c' :: _ => is_backtick c' | [] => false end) eqn:Hc.
  - rewrite !adjacent_backticks_cons, IH. cbn [hd_error].
    replace (is_backtick ZWSP) with false by reflexivity.
    now rewrite andb_false_r.
  - rewrite adjacent_backticks_cons, IH, escapeCode_hd.
    destruct rest as [|c' rest']; cbn [hd_error] in *.
    + now rewrite andb_false_r.
    + now rewrite Hc.
Qed.

Lemma escapeCode_delete_ZWSP code :
  ~ In ZWSP code -> delete_ZWSP (escapeCode code) = code.
Proof.
  unfold delete_ZWSP.
  induction code as [|c rest IH]; intros Hnot; [reflexivity|].
  assert (Hc : (c =? ZWSP)%N = false).
  { apply N.eqb_neq. intros ->. apply Hnot. now left. }
  assert (Hrest : ~ In ZWSP rest) by (intros H; apply Hnot; now right).
  cbn [escapeCode].
  destruct (is_backtick c &&
            match rest with c' :: _ => is_backtick c' | [] => false end) eqn:Hb.
  - apply andb_prop in Hb as [Hb _]. apply N.eqb_eq in Hb. subst c.
    cbn [filter]. rewrite Hc. cbn [negb].
    replace (negb (ZWSP =? ZWSP)%N) with false by reflexivity.
    now rewrite (IH Hrest).
  - cbn [filter]. rewrite Hc. cbn [negb]. now rewrite (IH Hrest).
Qed.

Lemma last_cons {A : Type} (c : A) s d : s <> [] -> last (c :: s) d = last s d.
Proof. destruct s; [congruence | reflexivity]. Qed.

Lemma escapeCode_nonempty c rest : escapeCode (c :: rest) <> [].
Proof.
  intros He. pose proof (escapeCode_hd (c :: rest)) as Hh.
  rewrite He in Hh. discriminate.
Qed.

Lemma escapeCode_last code d : last (escapeCode code) d = last code d.
Proof.
  induction code as [|c rest IH]; [reflexivity|].
  cbn [escapeCode].
  destruct (is_backtick c &&
            match rest with c' :: _ => is_backtick c' | [] => false end) eqn:Hb.
  - destruct rest as [|c' rest']; [now rewrite andb_false_r in Hb|].
    rewrite (last_cons BACKTICK) by discriminate.
    rewrite (last_cons ZWSP) by apply escapeCode_nonempty.
    rewrite IH. reflexivity.
  - destruct rest as [|c' rest']; [reflexivity|].
    rewrite (last_cons c (escapeCode _)) by apply escapeCode_nonempty.
    rewrite IH. reflexivity.
Qed.

(** C10.  For an input without U+200B the escaped text has no two
    adjacent backticks, and deleting every U+200B from it gives the
    input back. *)
Theorem escapeCode_lossless (code : jsstring) :
  ~ In ZWSP code ->
  adjacent_backticks (escapeCode code) = false /\
  delete_ZWSP (escapeCode code) = code.
Proof.
  intros Hnot. split.
  - apply escapeCode_no_adjacent.
  - now apply escapeCode_delete_ZWSP.
Qed.

Lemma escapeCode_lossless_witness :
  ~ In ZWSP (js "a``b```") /\
  adjacent_backticks (escapeCode (js "a``b```")) = false /\
  delete_ZWSP (escapeCode (js "a``b```")) = js "a``b```".
Proof.
  assert (H : ~ In ZWSP (js "a``b```")).
  { cbv. intros H. repeat destruct H as [H|H]; try discriminate H. exact H. }
  split; [exact H | exact (escapeCode_lossless (js "a``b```") H)].
Defined.

(** ** makeCodeBlock *)

Lemma adjacent_backticks_nth s i :
  adjacent_backticks s = false ->
  nth_error s i = Some BACKTICK -> nth_error s (S i) = Some BACKTICK -> False.
Proof.
  revert i. induction s as [|c s IH]; intros i Hadj H0 H1.
  - destruct i; discriminate.
  - rewrite adjacent_backticks_cons in Hadj.
    apply orb_false_elim in Hadj as [Hhd Htl].
    destruct i as [|i].
    + simpl in H0, H1. injection H0 as ->.
      destruct s as [|c' s']; [discriminate|].
      simpl in H1. injection H1 as ->. discriminate Hhd.
    + simpl in H0. apply (IH i Htl H0 H1).
Qed.

Lemma adjacent_backticks_firstn s n :
  adjacent_backticks s = false -> adjacent_backticks (firstn n s) = false.
Proof.
  intros Hadj. destruct (adjacent_backticks (firstn n s)) eqn:Hf; [|reflexivity].
  exfalso. clear -Hadj Hf. revert n Hf Hadj.
  induction s as [|c s IH]; intros n Hf Hadj.
  - now rewrite firstn_nil in Hf.
  - destruct n as [|n]; [discriminate|].
    rewrite firstn_cons, adjacent_backticks_cons in Hf.
    rewrite adjacent_backticks_cons in Hadj.
    apply orb_false_elim in Hadj as [Hhd Htl].
    apply orb_prop in Hf as [Hf|Hf].
    + destruct n as [|n]; [simpl in Hf; now rewrite andb_false_r in Hf|].
      destruct s as [|c' s']; [simpl in Hf; now rewrite andb_false_r in Hf|].
      simpl in Hf, Hhd. congruence.
    + apply (IH n Hf Htl).
Qed.

Lemma occurs_at_CODEBLOCK s i :
  occurs_at CODEBLOCK s i <->
  nth_error s i = Some BACKTICK /\
  nth_error s (S i) = Some BACKTICK /\
  nth_error s (S (S i)) = Some BACKTICK.
Proof.
  unfold occurs_at.
  rewrite <- (Nat.add_0_r i) at 2.
  replace (S i) with (i + 1)%nat by lia.
  replace (S (i + 1)) with (i + 2)%nat by lia.
  rewrite <- !nth_error_skipn.
  change (length CODEBLOCK) with 3%nat.
  change CODEBLOCK with [BACKTICK; BACKTICK; BACKTICK].
  destruct (skipn i s) as [|a [|b [|c u]]]; simpl; split;
    try (intros H; discriminate H);
    try (intros (H0 & H1 & H2); discriminate).
  - intros H. now injection H as -> -> ->.
  - intros (H0 & H1 & H2). congruence.
Qed.

Lemma makeCodeBlock_shape code :
  makeCodeBlock code = (CODEBLOCK ++ js "ts" ++ [LF]) ++ fenced_text code ++ CODEBLOCK.
Proof.
  unfold makeCodeBlock, fenced_text.
  destruct (Z.ltb_spec MAX_CODE_LENGTH (len (escapeCode code))) as [Hlt|Hle].
  - rewrite String_slice_prefix.
    + now rewrite <- !app_assoc.
    + change MAX_CODE_LENGTH with 2039%Z in *. lia.
  - now rewrite <- !app_assoc.
Qed.

Lemma fenced_text_length code : (len (fenced_text code) <= MAX_CODE_LENGTH)%Z.
Proof.
  unfold fenced_text.
  destruct (Z.ltb_spec MAX_CODE_LENGTH (len (escapeCode code))) as [Hlt|Hle];
    [|exact Hle].
  rewrite len_app. unfold len in *. rewrite length_firstn.
  change MAX_CODE_LENGTH with 2039%Z in *. simpl length. lia.
Qed.

Lemma fenced_text_no_adjacent code : adjacent_backticks (fenced_text code) = false.
Proof.
  unfold fenced_text.
  destruct (MAX_CODE_LENGTH <? len (escapeCode code))%Z;
    [|apply escapeCode_no_adjacent].
  pose proof (adjacent_backticks_firstn (escapeCode code)
                (Z.to_nat (MAX_CODE_LENGTH - 1))
                (escapeCode_no_adjacent code)) as Hp.
  destruct (adjacent_backticks (firstn (Z.to_nat (MAX_CODE_LENGTH - 1))
                                  (escapeCode code) ++ [ELLIPSIS])) eqn:Hf;
    [|reflexivity].
  exfalso. revert Hp Hf.
  generalize (firstn (Z.to_nat (MAX_CODE_LENGTH - 1)) (escapeCode code)).
  induction l as [|c l IH]; intros Hp Hf; [discriminate|].
  rewrite <- app_comm_cons, adjacent_backticks_cons in Hf.
  rewrite adjacent_backticks_cons in Hp.
  apply orb_false_elim in Hp as [Hhd Htl].
  apply orb_prop in Hf as [Hf|Hf]; [|now apply IH].
  destruct l as [|c' l']; simpl in Hf, Hhd.
  - now rewrite andb_false_r in Hf.
  - congruence.
Qed.

(** The block never exceeds the size Discord allows. *)
Lemma makeCodeBlock_length code :
  (len (makeCodeBlock code) <= DISCORD_MAX_LENGTH)%Z.
Proof.
  rewrite makeCodeBlock_shape, !len_app.
  pose proof (fenced_text_length code) as H.
  change MAX_CODE_LENGTH with 2039%Z in H.
  change DISCORD_MAX_LENGTH with 2048%Z.
  change (len CODEBLOCK) with 3%Z. change (len (js "ts")) with 2%Z.
  change (len [LF]) with 1%Z. lia.
Qed.

(** Where three backticks in a row can stand in the block: at the
    opening fence, at the closing fence, and one unit before the
    closing fence; the last only when the snippet ends in a backtick
    and was not truncated. *)
Lemma makeCodeBlock_fences code i :
  occurs_at CODEBLOCK (makeCodeBlock code) i ->
  i = 0%nat \/ i = closing_fence (makeCodeBlock code) \/
  (S i = closing_fence (makeCodeBlock code) /\
   last code 0%N = BACKTICK /\
   (len (escapeCode code) <= MAX_CODE_LENGTH)%Z).
Proof.
  intros Hocc. apply occurs_at_CODEBLOCK in Hocc as (H0 & H1 & H2).
  unfold closing_fence. rewrite makeCodeBlock_shape in *.
  rewrite !length_app.
  change (length CODEBLOCK) with 3%nat. change (length (js "ts")) with 2%nat.
  change (length [LF]) with 1%nat.
  set (body := fenced_text code) in *.
  pose proof (fenced_text_no_adjacent code) as Hadj. fold body in Hadj.
  destruct (Nat.lt_ge_cases i 6) as [Hi|Hi].
  - (* inside the opening fence and the language tag *)
    left.
    do 6 (destruct i as [|i]; [try reflexivity; discriminate|]). lia.
  - right.
    rewrite nth_error_app2 in H0, H1, H2
      by (change (length (CODEBLOCK ++ js "ts" ++ [LF])) with 6%nat; lia).
    change (length (CODEBLOCK ++ js "ts" ++ [LF])) with 6%nat in *.
    assert (Hb : (Datatypes.length body <= S (i - 6))%nat).
    { destruct (Nat.lt_ge_cases (S (i - 6)) (length body)) as [Hin|]; [|assumption].
      exfalso. apply (adjacent_backticks_nth body (i - 6) Hadj).
      - rewrite nth_error_app1 in H0 by lia. exact H0.
      - replace (S i - 6)%nat with (S (i - 6)) in H1 by lia.
        rewrite nth_error_app1 in H1 by lia. exact H1. }
    assert (Hc : (S (S i) - 6 < length (body ++ CODEBLOCK))%nat).
    { apply nth_error_Some. congruence. }
    rewrite length_app in Hc. change (length CODEBLOCK) with 3%nat in Hc.
    destruct (Nat.eq_dec (i - 6) (length body)) as [He|Hne]; [left; lia|].
    right. split; [lia|].
    assert (Hlast : nth_error body (i - 6) = Some BACKTICK).
    { rewrite nth_error_app1 in H0 by lia. exact H0. }
    assert (Hi6 : (S (i - 6) = length body)%nat) by lia.
    assert (Hl : last body 0%N = BACKTICK).
    { clear -Hlast Hi6. revert Hlast Hi6. generalize (i - 6)%nat as k.
      induction body as [|c b IH]; intros k Hlast Hi6; [discriminate|].
      destruct k as [|k].
      - destruct b; [|discriminate]. simpl in Hlast. now injection Hlast.
      - destruct b as [|c' b']; [discriminate|].
        rewrite last_cons by discriminate.
        apply (IH k); [exact Hlast | simpl in *; lia]. }
    unfold body, fenced_text in Hl.
    destruct (Z.ltb_spec MAX_CODE_LENGTH (len (escapeCode code))) as [Hlt|Hle].
    + rewrite last_last in Hl. discriminate.
    + rewrite escapeCode_last in Hl. now split.
Qed.

(** A snippet that does not end in a backtick leaves the two fences as
    the only places with three backticks in a row. *)
Lemma makeCodeBlock_fences_closed code i :
  last code 0%N <> BACKTICK ->
  occurs_at CODEBLOCK (makeCodeBlock code) i ->
  i = 0%nat \/ i = closing_fence (makeCodeBlock code).
Proof.
  intros Hlast Hocc.
  destruct (makeCodeBlock_fences code i Hocc) as [H|[H|(_ & H & _)]]; auto.
  contradiction.
Qed.

(** C7.  The snippet made of two backticks: its block is 12 units long,
    the closing fence starts at offset 9, and three backticks in a row
    already stand at offset 8, one unit before the closing fence. *)
Theorem makeCodeBlock_fence_one_early :
  makeCodeBlock (js "``") =
    js "```ts" ++ [LF] ++ [BACKTICK; ZWSP; BACKTICK] ++ js "```" /\
  (len (makeCodeBlock (js "``")) <= DISCORD_MAX_LENGTH)%Z /\
  closing_fence (makeCodeBlock (js "``")) = 9%nat /\
  occurs_at CODEBLOCK (makeCodeBlock (js "``")) 8.
Proof.
  repeat split; vm_compute; congruence.
Qed.

(** ** The table of line offsets *)

Lemma String_split_nonempty sep s : String_split sep s <> [].
Proof.
  destruct s as [|c rest]; simpl; [discriminate|].
  destruct (c =? sep)%N; [discriminate|].
  destruct (String_split sep rest); discriminate.
Qed.

(** The lines of a text and the separators between them add up to the
    text: the sum of [length + 1] over the lines is [text.length + 1]. *)
Lemma String_split_total sep s :
  fold_right (fun l acc => (len l + 1 + acc)%Z) 0%Z (String_split sep s)
  = (len s + 1)%Z.
Proof.
  induction s as [|c rest IH]; [reflexivity|].
  cbn [String_split].
  destruct (c =? sep)%N.
  - cbn [fold_right]. rewrite IH, len_cons. change (len (@nil code_unit)) with 0%Z. lia.
  - pose proof (String_split_nonempty sep rest) as Hne.
    destruct (String_split sep rest) as [|l ls]; [congruence|].
    cbn [fold_right] in *. rewrite !len_cons. lia.
Qed.

Lemma nth_last {A : Type} (l : list A) n d :
  length l = S n -> nth n l d = last l d.
Proof.
  revert n; induction l as [|a l IH]; intros n Hlen; [discriminate|].
  destruct l as [|b l'].
  - simpl in Hlen. injection Hlen as <-. reflexivity.
  - destruct n as [|n]; [discriminate|].
    rewrite last_cons by discriminate.
    simpl nth. apply IH. simpl in *; lia.
Qed.

Lemma last_snoc {A : Type} (l : list A) a d : last (l ++ [a]) d = a.
Proof. apply last_last. Qed.

(** The reduction of the source, started anywhere: each step appends
    the entry the recurrence prescribes. *)
Lemma reduce_offsets lineLengths : forall acc i0,
  length acc = S i0 ->
  fold_left (fun acc ix => acc ++ [(snd ix + nth (fst ix) acc 0 + len [LF])%Z])
            (combine (seq i0 (length lineLengths)) lineLengths) acc
  = acc ++ offsets_from (last acc 0%Z) lineLengths.
Proof.
  induction lineLengths as [|l rest IH]; intros acc i0 Hlen.
  - simpl. now rewrite app_nil_r.
  - simpl length. simpl seq. simpl combine. simpl fold_left.
    rewrite (IH _ (S i0)) by (rewrite length_app; simpl; lia).
    rewrite last_snoc, (nth_last acc i0 0%Z Hlen).
    change (len [LF]) with 1%Z.
    rewrite <- app_assoc. simpl.
    replace (l + last acc 0 + 1)%Z with (last acc 0 + l + 1)%Z by lia.
    reflexivity.
Qed.

(** The table the code builds is the table of the recurrence. *)
Lemma cumulativeLineLengths_recurrence text :
  cumulativeLineLengths text = LineOffsetTable text.
Proof.
  unfold cumulativeLineLengths, LineOffsetTable, Array_reduce.
  exact (reduce_offsets (List.map (@len code_unit) (String_split LF text))
           [0%Z] 0 eq_refl).
Qed.

Lemma offsets_from_above lens : forall e j b,
  Forall (fun l => 0 <= l)%Z lens ->
  nth_error (offsets_from e lens) j = Some b -> (e < b)%Z.
Proof.
  induction lens as [|l rest IH]; intros e j b Hpos Hj.
  - destruct j; discriminate.
  - inversion Hpos as [|? ? Hl Hrest]; subst.
    destruct j as [|j]; simpl in Hj.
    + injection Hj as <-. lia.
    + specialize (IH _ _ _ Hrest Hj). lia.
Qed.

Lemma offsets_from_nondecreasing lens : forall e,
  Forall (fun l => 0 <= l)%Z lens ->
  nondecreasing (e :: offsets_from e lens).
Proof.
  induction lens as [|l rest IH]; intros e Hpos i j a b Hij Hi Hj.
  - destruct i as [|[|i]], j as [|[|j]]; simpl in *; try discriminate.
    injection Hi as <-; injection Hj as <-; lia.
  - inversion Hpos as [|? ? Hl Hrest]; subst.
    destruct i as [|i].
    + simpl in Hi. injection Hi as <-.
      destruct j as [|j]; cbn [nth_error] in Hj.
      * injection Hj as <-; lia.
      * apply offsets_from_above in Hj; [lia | assumption].
    + destruct j as [|j]; [lia|].
      simpl in Hi, Hj.
      apply (IH (e + l + 1)%Z Hrest i j a b); [lia | exact Hi | exact Hj].
Qed.

Lemma offsets_from_last lens : forall e,
  last (e :: offsets_from e lens) 0%Z
  = (e + fold_right (fun l acc => l + 1 + acc) 0 lens)%Z.
Proof.
  induction lens as [|l rest IH]; intros e.
  - simpl. lia.
  - change (offsets_from e (l :: rest))
      with ((e + l + 1)%Z :: offsets_from (e + l + 1) rest).
    rewrite last_cons by discriminate.
    rewrite IH. simpl fold_right. lia.
Qed.

Lemma line_lengths_nonneg (lines : list jsstring) :
  Forall (fun l => 0 <= l)%Z (List.map (@len code_unit) lines).
Proof.
  apply Forall_forall. intros l Hin. apply in_map_iff in Hin as (x & <- & _).
  apply len_nonneg.
Qed.

Lemma cumulativeLineLengths_nondecreasing text :
  nondecreasing (cumulativeLineLengths text).
Proof.
  rewrite cumulativeLineLengths_recurrence. unfold LineOffsetTable.
  apply offsets_from_nondecreasing, line_lengths_nonneg.
Qed.

Lemma cumulativeLineLengths_last text :
  last (cumulativeLineLengths text) 0%Z = (len text + 1)%Z.
Proof.
  rewrite cumulativeLineLengths_recurrence. unfold LineOffsetTable.
  rewrite offsets_from_last.
  rewrite <- (String_split_total LF text).
  generalize (String_split LF text) as lines.
  induction lines as [|l ls IH]; simpl in *; lia.
Qed.

(** C1, as the code has it.  For every text the table built by
    [createPlaygroundEmbed] is the table of the recurrence, it never
    goes down, and its final entry is the length of the text plus 1:
    the last line counts a newline as every other line does. *)
Theorem cumulativeLineLengths_table (text : jsstring) :
  cumulativeLineLengths text = LineOffsetTable text /\
  nondecreasing (cumulativeLineLengths text) /\
  last (cumulativeLineLengths text) 0%Z = (len text + 1)%Z.
Proof.
  split; [apply cumulativeLineLengths_recurrence|]. split.
  - apply cumulativeLineLengths_nondecreasing.
  - apply cumulativeLineLengths_last.
Qed.

(** C1, as stated, fails on the one-letter text: its table is [0; 2]
    and the text has length 1. *)
Lemma cumulativeLineLengths_last_counterexample :
  ~ (nondecreasing (cumulativeLineLengths (js "a")) /\
     last (cumulativeLineLengths (js "a")) 0%Z = len (js "a")).
Proof.
  intros [_ H]. vm_compute in H. discriminate H.
Qed.

(** ** Decoding the selection *)

Lemma number_strict_equal_NaN n : number_strict_equal n NaN = false.
Proof. destruct n; reflexivity. Qed.

(** What [getPosFromPGURLParam] returns, case by case: the comparison
    with NaN never holds, so a parameter that is not numeric goes
    through the subtraction. *)
Lemma getPosFromPGURLParam_cases params name :
  getPosFromPGURLParam params name =
  match URLSearchParams_get params name with
  | None => None
  | Some p =>
      if number_ltb (Number p) (FinZ 1) then None
      else Some (number_sub (Number p) (FinZ 1))
  end.
Proof.
  unfold getPosFromPGURLParam.
  destruct (URLSearchParams_get params name) as [p|]; [|reflexivity].
  now rewrite number_strict_equal_NaN.
Qed.

Lemma getPosFromPGURLParam_absent params name :
  URLSearchParams_get params name = None ->
  getPosFromPGURLParam params name = None.
Proof. intros H. rewrite getPosFromPGURLParam_cases, H. reflexivity. Qed.

Lemma getPosFromPGURLParam_below_1 params name p :
  URLSearchParams_get params name = Some p ->
  number_ltb (Number p) (FinZ 1) = true ->
  getPosFromPGURLParam params name = None.
Proof. intros H Hlt. rewrite getPosFromPGURLParam_cases, H, Hlt. reflexivity. Qed.

Lemma getPosFromPGURLParam_from_1 params name p :
  URLSearchParams_get params name = Some p ->
  number_leb (FinZ 1) (Number p) = true ->
  getPosFromPGURLParam params name = Some (number_sub (Number p) (FinZ 1)).
Proof.
  intros H Hle. rewrite getPosFromPGURLParam_cases, H.
  destruct (Number p) as [| |q|]; try discriminate; try reflexivity.
  unfold FinZ in *. simpl in *.
  rewrite <- (Qcompare_antisym (inject_Z 1) q).
  destruct (Qcompare (inject_Z 1) q); simpl; try reflexivity. discriminate.
Qed.

Lemma getPosFromPGURLParam_not_numeric params name p :
  URLSearchParams_get params name = Some p ->
  Number p = NaN ->
  getPosFromPGURLParam params name = Some NaN.
Proof. intros H Hn. rewrite getPosFromPGURLParam_cases, H, Hn. reflexivity. Qed.

(** C2.  The query [pln=abc]: the parameter is present and is not
    numeric, and it is decoded as the number NaN, not as [undefined];
    NaN then is the start line of the selection. *)
Theorem getPosFromPGURLParam_NaN :
  URLSearchParams_get (URLSearchParams_new (js "pln=abc")) (js "pln")
    = Some (js "abc") /\
  Number (js "abc") = NaN /\
  getPosFromPGURLParam (URLSearchParams_new (js "pln=abc")) (js "pln")
    = Some NaN /\
  startLine (getSelectionFromQuery (js "pln=abc")) = Some NaN.
Proof. repeat split; vm_compute; reflexivity. Qed.

Lemma Qcompare_sub_0 x y : Qcompare (x + - y) (inject_Z 0) = Qcompare x y.
Proof.
  change (inject_Z 0) with 0%Q.
  destruct (Qcompare x y) eqn:Hc.
  - apply Qeq_alt in Hc. apply Qeq_alt. rewrite Hc. ring.
  - apply Qlt_alt in Hc. apply Qlt_alt.
    apply Qlt_minus_iff in Hc. apply Qlt_minus_iff.
    setoid_replace (0 + - (x + - y))%Q with (y + - x)%Q by ring. exact Hc.
  - apply Qgt_alt in Hc. apply Qgt_alt.
    apply Qlt_minus_iff in Hc. apply Qlt_minus_iff.
    setoid_replace (x + - y + - 0)%Q with (x + - y)%Q by ring. exact Hc.
Qed.

(** [a - b < 0] is [a < b], infinities and NaN included. *)
Lemma number_sub_ltb_0 a b :
  number_ltb (number_sub a b) (FinZ 0) = number_ltb a b.
Proof.
  destruct a as [| |x|], b as [| |y|]; try reflexivity.
  unfold number_sub, FinZ. simpl. now rewrite Qcompare_sub_0.
Qed.

Lemma number_ltb_asym a b : number_ltb a b = true -> number_ltb b a = false.
Proof.
  destruct a as [| |x|], b as [| |y|]; simpl; try congruence.
  rewrite <- (Qcompare_antisym x y).
  destruct (Qcompare x y); simpl; congruence.
Qed.

(** The two positions once sorted: the anchor comes first exactly when
    its line is strictly below the line of the cursor. *)
Lemma orderedSelection_cases c s :
  orderedSelection c s =
  if number_ltb (nullish (line s) (FinZ 0)) (nullish (line c) (FinZ 0))
  then {| startLine := line s; startColumn := column s;
          endLine := line c; endColumn := column c |}
  else {| startLine := line c; startColumn := column c;
          endLine := line s; endColumn := column s |}.
Proof.
  unfold orderedSelection, Array_sort. cbn [fold_left sort_insert].
  unfold by_line. rewrite number_sub_ltb_0.
  destruct (number_ltb _ _); reflexivity.
Qed.

(** Whichever point is written first, a point whose line is strictly
    below the line of the other one is the start. *)
Lemma orderedSelection_swap c s :
  number_ltb (nullish (line c) (FinZ 0)) (nullish (line s) (FinZ 0)) = true \/
  number_ltb (nullish (line s) (FinZ 0)) (nullish (line c) (FinZ 0)) = true ->
  orderedSelection s c = orderedSelection c s.
Proof.
  intros [H|H]; rewrite !orderedSelection_cases, H;
    rewrite (number_ltb_asym _ _ H); reflexivity.
Qed.

(** On a tie the cursor is the start and the anchor the end. *)
Lemma orderedSelection_tie c s :
  number_ltb (nullish (line s) (FinZ 0)) (nullish (line c) (FinZ 0)) = false ->
  orderedSelection c s =
  {| startLine := line c; startColumn := column c;
     endLine := line s; endColumn := column s |}.
Proof. intros H. now rewrite orderedSelection_cases, H. Qed.

(** C5, as the code has it.  When the lines of the two points, an
    unset line counting as 0, are two different numbers, the query with
    cursor and anchor exchanged gives the identical selection. *)
Theorem getSelectionFromQuery_swap (q q' : jsstring) :
  swapped_points q q' ->
  distinct_lines q ->
  getSelectionFromQuery q' = getSelectionFromQuery q.
Proof.
  unfold swapped_points, distinct_lines, getSelectionFromQuery.
  cbv zeta. intros (Hl & Hc & Hsl & Hsc) Hd.
  assert (E : forall n n',
             URLSearchParams_get (URLSearchParams_new q') n' =
             URLSearchParams_get (URLSearchParams_new q) n ->
             getPosFromPGURLParam (URLSearchParams_new q') n' =
             getPosFromPGURLParam (URLSearchParams_new q) n).
  { intros n n' He. unfold getPosFromPGURLParam. now rewrite He. }
  rewrite (E _ _ Hl), (E _ _ Hc), (E _ _ Hsl), (E _ _ Hsc).
  apply orderedSelection_swap. exact Hd.
Qed.

Lemma getSelectionFromQuery_swap_witness :
  swapped_points (js "pln=3&pc=5&ssl=1&ssc=2") (js "pln=1&pc=2&ssl=3&ssc=5") /\
  distinct_lines (js "pln=3&pc=5&ssl=1&ssc=2") /\
  getSelectionFromQuery (js "pln=1&pc=2&ssl=3&ssc=5")
    = getSelectionFromQuery (js "pln=3&pc=5&ssl=1&ssc=2").
Proof.
  assert (Hs : swapped_points (js "pln=3&pc=5&ssl=1&ssc=2")
                              (js "pln=1&pc=2&ssl=3&ssc=5"))
    by (repeat split; vm_compute; reflexivity).
  assert (Hd : distinct_lines (js "pln=3&pc=5&ssl=1&ssc=2"))
    by (right; vm_compute; reflexivity).
  split; [exact Hs|]. split; [exact Hd|].
  exact (getSelectionFromQuery_swap _ _ Hs Hd).
Defined.

(** C5, as stated, fails when one point has no line and the other one
    is on the first line: an unset line compares as 0, the two points
    tie, the point written as the cursor stays the start, and the
    selection keeps which of its lines is unset. *)
Lemma getSelectionFromQuery_swap_counterexample :
  swapped_points (js "ssl=1") (js "pln=1") /\
  startLine (getSelectionFromQuery (js "ssl=1")) = None /\
  endLine (getSelectionFromQuery (js "ssl=1")) = Some (FinZ 0) /\
  startLine (getSelectionFromQuery (js "pln=1")) = Some (FinZ 0) /\
  endLine (getSelectionFromQuery (js "pln=1")) = None /\
  getSelectionFromQuery (js "pln=1") <> getSelectionFromQuery (js "ssl=1").
Proof.
  repeat split; try (vm_compute; reflexivity).
  vm_compute. intros H. discriminate H.
Qed.

(** Two points on one line tie as well, whatever their columns: the
    point written as the cursor is the start even when its column is
    the larger one. *)
Lemma getSelectionFromQuery_same_line :
  swapped_points (js "pln=1&pc=5&ssl=1&ssc=2") (js "pln=1&pc=2&ssl=1&ssc=5") /\
  startColumn (getSelectionFromQuery (js "pln=1&pc=5&ssl=1&ssc=2"))
    = Some (FinZ 4) /\
  endColumn (getSelectionFromQuery (js "pln=1&pc=5&ssl=1&ssc=2"))
    = Some (FinZ 1) /\
  getSelectionFromQuery (js "pln=1&pc=2&ssl=1&ssc=5")
    <> getSelectionFromQuery (js "pln=1&pc=5&ssl=1&ssc=2").
Proof.
  repeat split; try (vm_compute; reflexivity).
  vm_compute. intros H. discriminate H.
Qed.

(** ** The range of the snippet *)

Lemma array_get_index {A : Type} (arr : list A) n a :
  array_get arr n = Some a ->
  exists q, n = Fin q /\ (0 <= Qnum q)%Z /\
            nth_error arr (Z.to_nat (Qtrunc q)) = Some a.
Proof.
  destruct n as [| |q|]; simpl; try discriminate.
  destruct (Q_is_integer q); simpl; [|discriminate].
  destruct (Z.leb_spec 0 (Qnum q)) as [Hq|Hq]; [|discriminate].
  intros Hget. exists q. auto.
Qed.

Lemma Qtrunc_floor q : (0 <= Qnum q)%Z -> Qtrunc q = Qfloor q.
Proof.
  destruct q as [n d]. unfold Qtrunc, Qfloor. simpl. intros Hn.
  apply Z.quot_div_nonneg; lia.
Qed.

(** Of two indices of an array the one that is the smaller number is
    the earlier index. *)
Lemma array_get_le {A : Type} (arr : list A) n m a b :
  array_get arr n = Some a -> array_get arr m = Some b ->
  number_leb n m = true ->
  exists i j, (i <= j)%nat /\ nth_error arr i = Some a /\ nth_error arr j = Some b.
Proof.
  intros Hn Hm Hle.
  apply array_get_index in Hn as (q & -> & Hq & Hi).
  apply array_get_index in Hm as (r & -> & Hr & Hj).
  exists (Z.to_nat (Qtrunc q)), (Z.to_nat (Qtrunc r)). repeat split; trivial.
  apply Z2Nat.inj_le.
  - rewrite Qtrunc_floor by assumption. destruct q as [qn qd]; simpl in *.
    apply Z.div_pos; lia.
  - rewrite Qtrunc_floor by assumption. destruct r as [rn rd]; simpl in *.
    apply Z.div_pos; lia.
  - rewrite !Qtrunc_floor by assumption. apply Qfloor_resp_le.
    apply Qle_alt. simpl in Hle. destruct (Qcompare q r); congruence.
Qed.

Lemma nth_error_last {A : Type} (l : list A) d :
  l <> [] -> nth_error l (length l - 1) = Some (last l d).
Proof.
  induction l as [|a l IH]; intros Hne; [congruence|].
  destruct l as [|b l']; [reflexivity|].
  rewrite last_cons by discriminate.
  replace (length (a :: b :: l') - 1)%nat with (S (length (b :: l') - 1))
    by (simpl; lia).
  cbn [nth_error]. apply IH. discriminate.
Qed.

Lemma cumulativeLineLengths_nonempty text : cumulativeLineLengths text <> [].
Proof. rewrite cumulativeLineLengths_recurrence. discriminate. Qed.

Lemma cumulativeLineLengths_first text :
  nth_error (cumulativeLineLengths text) 0 = Some 0%Z.
Proof. rewrite cumulativeLineLengths_recurrence. reflexivity. Qed.

(** Every entry of the table lies between 0 and the length of the text
    plus 1. *)
Lemma cumulativeLineLengths_bounds text i a :
  nth_error (cumulativeLineLengths text) i = Some a ->
  (0 <= a <= len text + 1)%Z.
Proof.
  intros Hi.
  pose proof (cumulativeLineLengths_nondecreasing text) as Hmono.
  pose proof (cumulativeLineLengths_last text) as Hlast.
  split.
  - apply (Hmono 0%nat i 0%Z a); [lia | apply cumulativeLineLengths_first | exact Hi].
  - rewrite <- Hlast.
    apply (Hmono i (length (cumulativeLineLengths text) - 1)%nat); trivial.
    + assert (i < length (cumulativeLineLengths text))%nat
        by (apply nth_error_Some; congruence). lia.
    + apply nth_error_last, cumulativeLineLengths_nonempty.
Qed.

(** Without an end line the end of the range is an entry of the table
    at or after the start. *)
Lemma byDefault_defined text sc :
  (0 <= sc <= len text + 1)%Z ->
  let cll := cumulativeLineLengths text in
  let cutoff := Math_min (number_add (FinZ sc) (FinZ DEFAULT_EMBED_LENGTH))
                         (FinZ (len text)) in
  exists ec,
    match Array_find (fun l => number_ltb cutoff (FinZ l)) cll with
    | Some l => Some l
    | None => array_get cll (FinZ (len cll - 1))
    end = Some ec /\ (sc <= ec <= len text + 1)%Z.
Proof.
  intros Hsc cll cutoff.
  unfold cutoff. rewrite FinZ_add, FinZ_min.
  destruct (Array_find _ cll) as [l|] eqn:Hf.
  - exists l. split; [reflexivity|].
    apply find_some in Hf as [Hin Hl]. rewrite FinZ_ltb in Hl.
    apply Z.ltb_lt in Hl.
    apply In_nth_error in Hin as [i Hi].
    apply cumulativeLineLengths_bounds in Hi.
    change DEFAULT_EMBED_LENGTH with 256%Z in Hl. lia.
  - exists (last cll 0%Z).
    rewrite array_get_FinZ.
    pose proof (cumulativeLineLengths_nonempty text) as Hne. fold cll in Hne.
    assert (0 < len cll)%Z by (unfold len; destruct cll; [congruence | simpl; lia]).
    destruct (Z.leb_spec 0 (len cll - 1)); [|lia].
    replace (Z.to_nat (len cll - 1)) with (length cll - 1)%nat by (unfold len; lia).
    rewrite (nth_error_last cll 0%Z Hne). split; [reflexivity|].
    pose proof (cumulativeLineLengths_last text) as Hlast.
    fold cll in Hlast. lia.
Qed.

Lemma rel_index_nonneg size n : (0 <= size)%Z -> (0 <= rel_index size n)%Z.
Proof.
  intros Hs. destruct n as [| |q|]; cbn [rel_index]; try lia.
  destruct (Z.ltb_spec (Qtrunc q) 0); lia.
Qed.

(** A slice whose end is NaN is empty. *)
Lemma String_slice_NaN {A : Type} (s : list A) start :
  String_slice s start (Some NaN) = [].
Proof.
  unfold String_slice. cbn [rel_index].
  assert (H : (0 <= match start with
                    | Some n => rel_index (len s) n
                    | None => 0
                    end)%Z).
  { destruct start; [apply rel_index_nonneg, len_nonneg | lia]. }
  replace (Z.to_nat (Z.max (0 - _) 0)) with 0%nat by lia.
  reflexivity.
Qed.

(** What a returned snippet is made of. *)
Lemma snippetOf_fields (F : Formatter) text sel s :
  snippetOf text sel = Returned s ->
  let r := rangeOf text sel in
  format text (startChar r) (endChar r) = Returned (pretty s) /\
  prettyEnd s =
    number_sub (FinZ (len (pretty s)))
               (number_sub (FinZ (len text)) (ToNumber (endChar r))) /\
  maxEnd s =
    Math_min (prettyEnd s)
             (number_add (ToNumber (startChar r)) (FinZ MAX_EMBED_LENGTH)) /\
  extract s =
    String_slice (pretty s) (option_map FinZ (startChar r)) (Some (maxEnd s)).
Proof.
  unfold snippetOf. cbv zeta.
  destruct (format text _ _) as [formatted|error]; [|discriminate].
  intros E. injection E as <-. repeat split.
Qed.


(** The two ends of the range of a selection that sits inside the
    text. *)
Lemma rangeOf_within text sel :
  selection_within text sel ->
  exists sc ec,
    startChar (rangeOf text sel) = Some sc /\
    endChar (rangeOf text sel) = Some ec /\
    (0 <= sc <= ec)%Z /\ (ec <= len text + 1)%Z.
Proof.
  intros [Hs He].
  destruct (array_get (cumulativeLineLengths text) (nullish (startLine sel) (FinZ 0)))
    as [sc|] eqn:Hsc; [clear Hs | congruence].
  assert (Hscb : (0 <= sc <= len text + 1)%Z).
  { pose proof Hsc as Hsc0. apply array_get_index in Hsc0 as (q & _ & _ & Hi).
    apply (cumulativeLineLengths_bounds _ _ _ Hi). }
  assert (Hec : exists ec, endChar (rangeOf text sel) = Some ec /\
                           (sc <= ec <= len text + 1)%Z).
  { unfold rangeOf. cbv zeta. cbn [endChar]. rewrite Hsc. cbn [ToNumber].
    destruct (endLine sel) as [l|]; [|apply (byDefault_defined text sc Hscb)].
    destruct (number_truthy l); [|apply (byDefault_defined text sc Hscb)].
    destruct (He eq_refl) as [Hl Hle].
    destruct (array_get (cumulativeLineLengths text) l) as [ec|] eqn:Hel;
      [|congruence].
    exists ec. split; [reflexivity|].
    destruct (array_get_le _ _ _ _ _ Hsc Hel Hle) as (i & j & Hij & Hi & Hj).
    pose proof (cumulativeLineLengths_nondecreasing text) as Hmono.
    split; [apply (Hmono i j sc ec Hij Hi Hj)|].
    apply (cumulativeLineLengths_bounds _ _ _ Hj). }
  destruct Hec as (ec & Hec & Hecb).
  exists sc, ec. repeat split; try lia; [|exact Hec].
  unfold rangeOf. cbv zeta. cbn [startChar]. exact Hsc.
Qed.

(** Where the bound on the extract does hold: for a selection that sits inside
    the text and a formatted text with room for the range, the extract
    is at most [MAX_EMBED_LENGTH] long and [startChar <= maxEnd]. *)
Lemma snippetOf_bounds (F : Formatter) (text : jsstring) (sel : Selection)
    (s : Snippet) :
  selection_within text sel ->
  snippetOf text sel = Returned s ->
  room_for_range text (rangeOf text sel) (pretty s) ->
  (len (extract s) <= MAX_EMBED_LENGTH)%Z /\
  number_leb (ToNumber (startChar (rangeOf text sel))) (maxEnd s) = true.
Proof.
  intros Hin Hs Hroom.
  destruct (rangeOf_within text sel Hin) as (sc & ec & Hsc & Hec & Hscb & Hecb).
  destruct (snippetOf_fields F text sel s Hs) as (_ & Hpe & Hme & Hex).
  unfold room_for_range in Hroom. rewrite Hsc, Hec in Hroom.
  rewrite Hec in Hpe. cbn [ToNumber] in Hpe. rewrite !FinZ_sub in Hpe.
  rewrite Hpe, Hsc in Hme. cbn [ToNumber] in Hme.
  rewrite FinZ_add, FinZ_min in Hme.
  rewrite Hex, Hme, Hsc. cbn [ToNumber option_map].
  change MAX_EMBED_LENGTH with 512%Z in *.
  split.
  - pose proof (String_slice_length (pretty s)
        (Some (FinZ sc))
        (Some (FinZ (Z.min (len (pretty s) - (len text - ec))
                           (sc + 512))))) as Hsl.
    cbv iota in Hsl. rewrite !rel_index_FinZ in Hsl.
    pose proof (len_nonneg (pretty s)).
    destruct (Z.ltb_spec sc 0), (Z.ltb_spec
      (Z.min (len (pretty s) - (len text - ec)) (sc + 512)) 0);
      lia.
  - rewrite FinZ_leb. apply Z.leb_le. lia.
Qed.

Lemma snippetOf_bounds_example :
  let text := js "ab" ++ [LF] ++ js "cd" in
  let sel := getSelectionFromQuery (js "pln=3&pc=5&ssl=1&ssc=2") in
  exists s,
    @snippetOf unchanged text sel = Returned s /\
    selection_within text sel /\
    room_for_range text (rangeOf text sel) (pretty s) /\
    extract s = js "ab" ++ [LF] ++ js "cd".
Proof.
  cbv zeta. eexists. split; [reflexivity|].
  split; [|split; [vm_compute; discriminate | vm_compute; reflexivity]].
  split; [vm_compute; discriminate|].
  vm_compute. intros _. split; [discriminate | reflexivity].
Qed.

(** A line past the table: for the query [pln=100] on a text of two
    lines the end of the range is [undefined], [maxEnd] is NaN and the
    extract is empty, whatever the formatter gives back. *)
Lemma snippetOf_end_outside (F : Formatter) (s : Snippet) :
  snippetOf (js "ab" ++ [LF] ++ js "cd")
            (getSelectionFromQuery (js "pln=100")) = Returned s ->
  maxEnd s = NaN /\ extract s = [].
Proof.
  intros Hs.
  destruct (snippetOf_fields F _ _ s Hs) as (_ & Hpe & Hme & Hex).
  cbv zeta in *.
  assert (Hnan : maxEnd s = NaN).
  { rewrite Hme, Hpe. reflexivity. }
  split; [exact Hnan|].
  rewrite Hex, Hnan. apply String_slice_NaN.
Qed.

(** A selection whose start line is after its end line: with the text
    left unchanged [maxEnd] is before [startChar]. *)
Lemma snippetOf_reversed_selection :
  let sel := {| startLine := Some (FinZ 2); startColumn := None;
                endLine := Some (FinZ 1); endColumn := None |} in
  let text := js "ab" ++ [LF] ++ js "cd" ++ [LF] ++ js "ef" in
  startChar (rangeOf text sel) = Some 6%Z /\
  option_map maxEnd
    (match @snippetOf unchanged text sel with
     | Returned s => Some s
     | Thrown _ => None
     end) = Some (FinZ 3).
Proof. cbv zeta. split; vm_compute; reflexivity. Qed.

(** A formatted text so short that [prettyEnd] is negative: [Math.min]
    keeps the negative number, [slice] counts it from the end of the
    formatted text, and the extract runs from [startChar] to that
    place. *)
Lemma snippetOf_negative_end (F : Formatter) text sel s sc ec :
  snippetOf text sel = Returned s ->
  startChar (rangeOf text sel) = Some sc -> (0 <= sc)%Z ->
  endChar (rangeOf text sel) = Some ec ->
  (len (pretty s) + ec < len text)%Z ->
  maxEnd s = FinZ (len (pretty s) - (len text - ec)) /\
  number_ltb (maxEnd s) (FinZ sc) = true /\
  len (extract s) = Z.max 0 (2 * len (pretty s) - (len text - ec) - sc).
Proof.
  intros Hs Hsc Hsc0 Hec Hshort.
  destruct (snippetOf_fields F text sel s Hs) as (_ & Hpe & Hme & Hex).
  cbv zeta in *.
  rewrite Hec in Hpe. cbn [ToNumber] in Hpe. rewrite !FinZ_sub in Hpe.
  rewrite Hpe, Hsc in Hme. cbn [ToNumber] in Hme.
  rewrite FinZ_add, FinZ_min in Hme.
  change MAX_EMBED_LENGTH with 512%Z in *.
  replace (Z.min (len (pretty s) - (len text - ec)) (sc + 512))
    with (len (pretty s) - (len text - ec))%Z in Hme by lia.
  split; [exact Hme|].
  split; [rewrite Hme, FinZ_ltb; apply Z.ltb_lt; lia|].
  rewrite Hex, Hme, Hsc. cbn [option_map].
  unfold String_slice. cbv zeta. rewrite !rel_index_FinZ.
  pose proof (len_nonneg (pretty s)). pose proof (len_nonneg text).
  destruct (Z.ltb_spec sc 0); [lia|].
  destruct (Z.ltb_spec (len (pretty s) - (len text - ec)) 0); [|lia].
  unfold len in *. rewrite length_firstn, length_skipn. lia.
Qed.


(** [endChar] when the end line is set and is neither 0 nor NaN. *)
Lemma rangeOf_endChar_truthy text sel l :
  endLine sel = Some l -> number_truthy l = true ->
  endChar (rangeOf text sel) = array_get (cumulativeLineLengths text) l.
Proof.
  intros Hl Ht. unfold rangeOf. cbv zeta. cbn [endChar].
  now rewrite Hl, Ht.
Qed.

(** An end line that is 0 or NaN is treated as an unset one. *)
Lemma rangeOf_endChar_falsy text sel l :
  endLine sel = Some l -> number_truthy l = false ->
  endChar (rangeOf text sel) =
  endChar (rangeOf text {| startLine := startLine sel;
                           startColumn := startColumn sel;
                           endLine := None;
                           endColumn := endColumn sel |}).
Proof.
  intros Hl Ht. unfold rangeOf. cbv zeta. cbn [endChar startLine endLine].
  now rewrite Hl, Ht.
Qed.

(** C4.  Both points on the first line of a two-line text: the end
    line is set, and is 0; the entry of the table at index 0 is 0; the
    end of the range is 6, the entry the default rule picks. *)
Theorem rangeOf_endLine_0 :
  endLine (getSelectionFromQuery (js "pln=1&pc=3&ssl=1&ssc=1")) = Some (FinZ 0) /\
  array_get (cumulativeLineLengths (js "ab" ++ [LF] ++ js "cd")) (FinZ 0)
    = Some 0%Z /\
  endChar (rangeOf (js "ab" ++ [LF] ++ js "cd")
                   (getSelectionFromQuery (js "pln=1&pc=3&ssl=1&ssc=1")))
    = Some 6%Z.
Proof. repeat split. Qed.

(** ** Scanning the channel *)

Lemma filter_all_bots (bots : list Message) :
  Forall (fun b => bot (author b) = true) bots ->
  List.filter (fun msg => negb (bot (author msg))) bots = [].
Proof.
  induction 1 as [|b bots Hb _ IH]; [reflexivity|].
  simpl. now rewrite Hb.
Qed.

(** C8, as the code has it.  With [ignoreLatest] the message dropped
    is the newest fetched message that is not from a bot: the result
    is that of the plain scan of the messages older than it. *)
Theorem findCodeblockFromChannel_ignoreLatest
    (channel : TextChannel) (bots : list Message) (m : Message)
    (rest : list Message) :
  fetch 10 channel = bots ++ m :: rest ->
  Forall (fun b => bot (author b) = true) bots ->
  bot (author m) = false ->
  findCodeblockFromChannel channel true = findCodeblockFromChannel rest false.
Proof.
  intros Hfetch Hbots Hm.
  assert (Hlen : (length rest < 10)%nat).
  { assert (H : (length (fetch 10 channel) <= 10)%nat)
      by (unfold fetch; rewrite length_firstn; lia).
    rewrite Hfetch, length_app in H. simpl in H. lia. }
  unfold findCodeblockFromChannel.
  rewrite Hfetch, filter_app, (filter_all_bots bots Hbots).
  cbn [app filter]. rewrite Hm. cbn [negb tl].
  unfold fetch at 1. rewrite firstn_all2 by lia. reflexivity.
Qed.

Lemma findCodeblockFromChannel_ignoreLatest_witness :
  let channel := [message "3" aBot (js "hello");
                  message "2" aUser (js "!playground");
                  message "1" aUser fencedText] in
  fetch 10 channel =
    [message "3" aBot (js "hello")]
      ++ message "2" aUser (js "!playground")
      :: [message "1" aUser fencedText] /\
  findCodeblockFromChannel channel true = Some (js "const x = 1" ++ [LF]).
Proof.
  cbv zeta. split; [reflexivity|].
  assert (Hb : Forall (fun b => bot (author b) = true)
                      [message "3" aBot (js "hello")])
    by (constructor; [reflexivity | constructor]).
  rewrite (findCodeblockFromChannel_ignoreLatest
             [message "3" aBot (js "hello");
              message "2" aUser (js "!playground");
              message "1" aUser fencedText]
             [message "3" aBot (js "hello")]
             (message "2" aUser (js "!playground"))
             [message "1" aUser fencedText]
             eq_refl Hb eq_refl).
  vm_compute. reflexivity.
Defined.

(** C8, as stated, fails when the newest fetched message is from a
    bot: that message is filtered out first, and the message dropped is
    the one behind it, here the only one with a code block. *)
Lemma findCodeblockFromChannel_ignoreLatest_counterexample :
  let channel := [message "2" aBot (js "hello");
                  message "1" aUser fencedText] in
  findCodeblockFromChannel channel true = None /\
  findCodeblockFromChannel (tl channel) false = Some (js "const x = 1" ++ [LF]).
Proof. split; vm_compute; reflexivity. Qed.




(** ** The embed *)

(** A payload that does not decode leaves the embed without a
    description: the reply is the link alone. *)
Lemma createPlaygroundEmbed_undecodable (C : Compression) (F : Formatter)
    from exec link :
  decompressFromEncodedURIComponent (group exec 2) = None ->
  exists embed,
    createPlaygroundEmbed from exec link = Returned embed /\
    description embed = None.
Proof.
  intros H. unfold createPlaygroundEmbed. rewrite H.
  eexists. split; reflexivity.
Qed.

(** A description, when there is one, fits the size Discord allows. *)
Lemma createPlaygroundEmbed_description (C : Compression) (F : Formatter)
    from exec link embed text :
  createPlaygroundEmbed from exec link = Returned embed ->
  description embed = Some text ->
  (len text <= DISCORD_MAX_LENGTH)%Z.
Proof.
  unfold createPlaygroundEmbed.
  destruct (decompressFromEncodedURIComponent (group exec 2)) as [[|c u]|].
  - intros E. injection E as <-. discriminate.
  - destruct (snippetOf _ _) as [snippet|error]; [|discriminate].
    intros E. injection E as <-. cbn [description setDescription].
    intros H. injection H as <-. apply makeCodeBlock_length.
  - intros E. injection E as <-. discriminate.
Qed.


(** ** The cache and the edit listener *)

(** A message of a user holding a link and other words is answered and
    tracked. *)
Lemma onPlaygroundLinkMessage_tracks :
  let msg := message "1" aUser (js "look: " ++ linkText) in
  exists w',
    @onPlaygroundLinkMessage plainDecoder unchanged newWorld msg = Returned w' /\
    LimitedSizeMap_get (editedLongLink w') (js "1") = Some 0%nat /\
    length (sent w') = 1%nat /\ deleted w' = [].
Proof.
  cbv zeta. eexists. split; [vm_compute; reflexivity|].
  repeat split.
Qed.

(** The same message when the formatter cannot parse the code of the
    link: the listener throws and nothing is sent or tracked. *)
Lemma onPlaygroundLinkMessage_throws :
  @onPlaygroundLinkMessage plainDecoder refusing newWorld
     (message "1" aUser (js "look: " ++ linkText))
  = Thrown (Error (js "SyntaxError")).
Proof. vm_compute. reflexivity. Qed.





Lemma editReply_length ref newContent rs :
  length (editReply ref newContent rs) = length rs.
Proof.
  revert ref; induction rs as [|r rs IH]; intros [|ref]; cbn [editReply length];
    auto.
Qed.

Lemma Forall_assoc_put {V : Type} (P : jsstring * V -> Prop) l key value :
  Forall P l -> P (key, value) ->
  (forall k v v', P (k, v) -> P (key, v') -> jsstring_eqb k key = true ->
                  P (k, v')) ->
  Forall P (assoc_put l key value).
Proof.
  intros Hl Hnew Hover. induction Hl as [|[k v] l Hk Hl IH]; cbn [assoc_put].
  - now constructor.
  - destruct (jsstring_eqb k key) eqn:E.
    + constructor; [|exact Hl]. now apply (Hover k v value).
    + now constructor.
Qed.

Lemma Forall_tl {A : Type} (P : A -> Prop) l : Forall P l -> Forall P (tl l).
Proof. intros H. destruct H; [constructor | assumption]. Qed.

Lemma Forall_filter {A : Type} (P : A -> Prop) f l :
  Forall P l -> Forall P (filter f l).
Proof.
  intros H. induction H as [|x l Hx Hl IH]; cbn [filter]; [constructor|].
  destruct (f x); [now constructor | exact IH].
Qed.

(** What [set] keeps of a property of the entries. *)
Lemma Forall_LimitedSizeMap_set {V : Type} (P : jsstring * V -> Prop)
    (m : LimitedSizeMap V) key value :
  Forall P (entries m) -> P (key, value) ->
  (forall k v v', P (k, v) -> P (key, v') -> jsstring_eqb k key = true ->
                  P (k, v')) ->
  Forall P (entries (LimitedSizeMap_set m key value)).
Proof.
  intros Hm Hnew Hover. unfold LimitedSizeMap_set. cbn [entries].
  pose proof (Forall_assoc_put P (entries m) key value Hm Hnew Hover) as Hput.
  destruct (_ <? _)%nat; [now apply Forall_tl | exact Hput].
Qed.


(** *** Every reply the cache refers to has been sent *)

Lemma refs_sent_more (w w' : World) :
  editedLongLink w' = editedLongLink w ->
  (length (sent w) <= length (sent w'))%nat ->
  refs_sent w -> refs_sent w'.
Proof.
  unfold refs_sent. intros -> Hlen H.
  eapply Forall_impl; [|exact H]. cbv beta. intros kv Hkv. lia.
Qed.

Lemma onPlaygroundLinkMessage_refs (C : Compression) (F : Formatter) w msg w' :
  onPlaygroundLinkMessage w msg = Returned w' ->
  refs_sent w -> refs_sent w'.
Proof.
  unfold onPlaygroundLinkMessage. intros Hstep Hw.
  destruct (bot (author msg)); [injection Hstep as <-; exact Hw|].
  destruct (RegExp_exec PLAYGROUND_REGEX (content msg)) as [exec|];
    [|injection Hstep as <-; exact Hw].
  destruct (createPlaygroundEmbed _ _ _) as [embed|error]; [|discriminate].
  destruct (jsstring_eqb (group exec 0) (content msg)); injection Hstep as <-.
  - apply (refs_sent_more w); [reflexivity | | exact Hw].
    cbn [sent]. rewrite length_app. lia.
  - unfold refs_sent. cbn [editedLongLink sent].
    rewrite length_app. cbn [length].
    apply Forall_LimitedSizeMap_set.
    + eapply Forall_impl; [|exact Hw]. cbv beta. intros kv Hkv. lia.
    + cbn [snd]. lia.
    + intros k v v' _ H _. exact H.
Qed.

Lemma onLongFix_refs w old msg : refs_sent w -> refs_sent (onLongFix w old msg).
Proof.
  intros Hw. unfold onLongFix.
  destruct (_ || _); [exact Hw|].
  unfold refs_sent, LimitedSizeMap_delete, assoc_remove.
  cbn [editedLongLink sent entries].
  apply Forall_filter.
  eapply Forall_impl; [|exact Hw]. cbv beta. intros kv Hkv.
  destruct (LimitedSizeMap_get _ _); [now rewrite editReply_length | exact Hkv].
Qed.

Lemma sendReply_refs w r : refs_sent w -> refs_sent (sendReply w r).
Proof.
  apply refs_sent_more; [reflexivity|].
  cbn [sendReply sent]. rewrite length_app. lia.
Qed.

Lemma playground_refs (E : Encoder) w channel msg code :
  refs_sent w -> refs_sent (playground w channel msg code).
Proof.
  intros Hw. unfold playground.
  destruct (no_text code); [destruct (no_text _)|]; now apply sendReply_refs.
Qed.

(** What the attachment listener does to the world when it returns:
    nothing, or one reply more and, for a message without text, one
    deletion more; the cache is never touched. *)
Lemma onPlaygroundLinkAttachment_returned
    (C : Compression) (F : Formatter) (N : Network) w msg attachments w' :
  onPlaygroundLinkAttachment w msg attachments = Returned w' ->
  editedLongLink w' = editedLongLink w /\
  (length (sent w) <= length (sent w'))%nat.
Proof.
  unfold onPlaygroundLinkAttachment.
  destruct (find _ attachments) as [a|]; [|intros E; injection E as <-; auto].
  destruct (bot (author msg)); [intros E; injection E as <-; auto|].
  destruct (fetchText _) as [pasted|error]; [|discriminate].
  destruct (RegExp_exec PLAYGROUND_REGEX pasted) as [exec|];
    [|intros E; injection E as <-; auto].
  destruct (negb _); [intros E; injection E as <-; auto|].
  destruct (shortenPlaygroundLink _) as [shortened|error]; [|discriminate].
  destruct (createPlaygroundEmbed _ _ _) as [embed|error]; [|discriminate].
  destruct (no_text _); intros E; injection E as <-;
    cbn [editedLongLink sendReply sent]; rewrite length_app; cbn [length];
    split; [reflexivity | lia | reflexivity | lia].
Qed.

Lemma onPlaygroundLinkAttachment_refs
    (C : Compression) (F : Formatter) (N : Network) w msg attachments w' :
  onPlaygroundLinkAttachment w msg attachments = Returned w' ->
  refs_sent w -> refs_sent w'.
Proof.
  intros Hstep.
  destruct (onPlaygroundLinkAttachment_returned C F N _ _ _ _ Hstep)
    as [Hcache Hsent].
  now apply refs_sent_more.
Qed.

(** *** The cache tracks messages of people only *)








(* ================================================================== *)
(** * Further properties of the code *)
(* ================================================================== *)

(** ** escapeCode and makeCodeBlock *)

(** A text without two adjacent backticks is left as it is. *)
Lemma escapeCode_fixed code :
  adjacent_backticks code = false -> escapeCode code = code.
Proof.
  induction code as [|c rest IH]; intros Hadj; [reflexivity|].
  rewrite adjacent_backticks_cons in Hadj.
  apply orb_false_elim in Hadj as [Hhd Htl].
  cbn [escapeCode]. rewrite (IH Htl).
  destruct rest as [|c' rest']; cbn [hd_error] in Hhd.
  - now rewrite andb_false_r.
  - now rewrite Hhd.
Qed.

(** X1.  Escaping twice is escaping once: the escaped text has no two
    adjacent backticks left, so a second pass finds nothing to do. *)
Theorem escapeCode_idempotent (code : jsstring) :
  escapeCode (escapeCode code) = escapeCode code.
Proof. apply escapeCode_fixed, escapeCode_no_adjacent. Qed.


Lemma escapeCode_len code :
  len (escapeCode code) = (len code + Z.of_nat (followed_backticks code))%Z.
Proof.
  induction code as [|c rest IH]; [reflexivity|].
  cbn [escapeCode followed_backticks].
  destruct (is_backtick c &&
            match rest with c' :: _ => is_backtick c' | [] => false end).
  - rewrite !len_cons, IH. lia.
  - rewrite !len_cons, IH. lia.
Qed.

Lemma followed_backticks_bound code :
  (followed_backticks code <= length code - 1)%nat.
Proof.
  induction code as [|c rest IH]; [simpl; lia|].
  cbn [followed_backticks length].
  destruct rest as [|c' rest'].
  - rewrite andb_false_r. simpl. lia.
  - destruct (is_backtick c && is_backtick c'); cbn [length] in *; lia.
Qed.

(** X2.  The escaped text is the input with one unit more for every
    backtick that has a backtick behind it; it is never shorter than
    the input and less than twice as long. *)
Theorem escapeCode_growth (code : jsstring) :
  len (escapeCode code) = (len code + Z.of_nat (followed_backticks code))%Z /\
  (len code <= len (escapeCode code) <= Z.max 0 (2 * len code - 1))%Z.
Proof.
  pose proof (escapeCode_len code) as Hl.
  pose proof (followed_backticks_bound code) as Hb.
  split; [exact Hl|]. unfold len in *. lia.
Qed.

(** X3.  All that escaping adds is U+200B: with every U+200B deleted
    the escaped text and the input are the same, whatever the input. *)
Theorem escapeCode_adds_ZWSP_only (code : jsstring) :
  delete_ZWSP (escapeCode code) = delete_ZWSP code.
Proof.
  unfold delete_ZWSP.
  induction code as [|c rest IH]; [reflexivity|].
  cbn [escapeCode].
  destruct (is_backtick c &&
            match rest with c' :: _ => is_backtick c' | [] => false end) eqn:Hb.
  - apply andb_prop in Hb as [Hb _]. apply N.eqb_eq in Hb. subst c.
    cbn [filter]. replace (negb (BACKTICK =? ZWSP)%N) with true by reflexivity.
    replace (negb (ZWSP =? ZWSP)%N) with false by reflexivity.
    now rewrite IH.
  - cbn [filter]. now rewrite IH.
Qed.

Lemma makeCodeBlock_opening code :
  starts_with (CODEBLOCK ++ js "ts" ++ [LF]) (makeCodeBlock code).
Proof.
  rewrite makeCodeBlock_shape. exists (fenced_text code ++ CODEBLOCK). reflexivity.
Qed.

Lemma makeCodeBlock_closing code : ends_with CODEBLOCK (makeCodeBlock code).
Proof.
  rewrite makeCodeBlock_shape.
  exists ((CODEBLOCK ++ js "ts" ++ [LF]) ++ fenced_text code).
  now rewrite <- !app_assoc.
Qed.

(** X4.  Whatever the snippet, the block is at most 2048 units long,
    opens with the fence, the tag [ts] and a newline, and closes with
    the fence. *)
Theorem makeCodeBlock_frame (code : jsstring) :
  (len (makeCodeBlock code) <= DISCORD_MAX_LENGTH)%Z /\
  starts_with (CODEBLOCK ++ js "ts" ++ [LF]) (makeCodeBlock code) /\
  ends_with CODEBLOCK (makeCodeBlock code).
Proof.
  split; [apply makeCodeBlock_length|].
  split; [apply makeCodeBlock_opening | apply makeCodeBlock_closing].
Qed.

(** X5.  A snippet whose escaped text exceeds 2039 units is cut: the
    block is exactly 2048 units long, it keeps the first 2038 units of
    the escaped text and ends with an ellipsis and the closing fence. *)
Theorem makeCodeBlock_truncated (code : jsstring) :
  (MAX_CODE_LENGTH < len (escapeCode code))%Z ->
  len (makeCodeBlock code) = DISCORD_MAX_LENGTH /\
  makeCodeBlock code =
    (CODEBLOCK ++ js "ts" ++ [LF])
      ++ firstn 2038 (escapeCode code) ++ [ELLIPSIS] ++ CODEBLOCK.
Proof.
  intros Hlong.
  assert (Hshape : makeCodeBlock code =
    (CODEBLOCK ++ js "ts" ++ [LF])
      ++ firstn 2038 (escapeCode code) ++ [ELLIPSIS] ++ CODEBLOCK).
  { rewrite makeCodeBlock_shape. unfold fenced_text.
    apply Z.ltb_lt in Hlong. rewrite Hlong.
    change (Z.to_nat (MAX_CODE_LENGTH - 1)) with 2038%nat.
    now rewrite <- !app_assoc. }
  split; [|exact Hshape].
  change MAX_CODE_LENGTH with 2039%Z in Hlong.
  assert (Hf : len (firstn 2038 (escapeCode code)) = 2038%Z).
  { unfold len in *. rewrite length_firstn. lia. }
  rewrite Hshape, !len_app, Hf.
  change (len CODEBLOCK) with 3%Z. change (len (js "ts")) with 2%Z.
  change (len [LF]) with 1%Z. change (len [ELLIPSIS]) with 1%Z.
  change DISCORD_MAX_LENGTH with 2048%Z. lia.
Qed.

Lemma makeCodeBlock_truncated_witness :
  (MAX_CODE_LENGTH < len (escapeCode (repeat 97%N 2040)))%Z /\
  len (makeCodeBlock (repeat 97%N 2040)) = DISCORD_MAX_LENGTH.
Proof.
  assert (H : (MAX_CODE_LENGTH < len (escapeCode (repeat 97%N 2040)))%Z)
    by (vm_compute; reflexivity).
  split; [exact H|].
  exact (proj1 (makeCodeBlock_truncated (repeat 97%N 2040) H)).
Defined.

(** X6.  Three backticks in a row stand in the block at the opening
    fence, at the closing fence, or one unit before the closing fence;
    the last only for a snippet that ends in a backtick and is not
    cut. *)
Theorem makeCodeBlock_three_backticks (code : jsstring) (i : nat) :
  occurs_at CODEBLOCK (makeCodeBlock code) i ->
  i = 0%nat \/ i = closing_fence (makeCodeBlock code) \/
  (S i = closing_fence (makeCodeBlock code) /\
   last code 0%N = BACKTICK /\
   (len (escapeCode code) <= MAX_CODE_LENGTH)%Z).
Proof. apply makeCodeBlock_fences. Qed.

Lemma makeCodeBlock_three_backticks_witness :
  occurs_at CODEBLOCK (makeCodeBlock (js "a``b")) 11 /\
  closing_fence (makeCodeBlock (js "a``b")) = 11%nat.
Proof.
  assert (H : occurs_at CODEBLOCK (makeCodeBlock (js "a``b")) 11)
    by (vm_compute; reflexivity).
  split; [exact H|].
  destruct (makeCodeBlock_three_backticks (js "a``b") 11 H) as [E|[E|[E _]]].
  - discriminate E.
  - symmetry. exact E.
  - vm_compute in E. discriminate E.
Defined.

(** ** The table of line offsets, continued *)

Lemma String_join_split sep s : String_join sep (String_split sep s) = s.
Proof.
  induction s as [|c rest IH]; [reflexivity|].
  cbn [String_split].
  destruct (c =? sep)%N eqn:Hc.
  - apply N.eqb_eq in Hc. subst c.
    pose proof (String_split_nonempty sep rest) as Hne.
    cbn [String_join]. destruct (String_split sep rest) as [|l ls];
      [congruence|]. rewrite IH. reflexivity.
  - pose proof (String_split_nonempty sep rest) as Hne.
    destruct (String_split sep rest) as [|l ls]; [congruence|].
    cbn [String_join] in *. destruct ls; rewrite <- IH; reflexivity.
Qed.

Lemma offsets_from_length lens : forall e,
  length (offsets_from e lens) = length lens.
Proof.
  induction lens as [|l rest IH]; intros e; [reflexivity|].
  cbn [offsets_from length]. now rewrite IH.
Qed.

Lemma offsets_from_increasing lens : forall e,
  Forall (fun l => 0 <= l)%Z lens ->
  increasing (e :: offsets_from e lens).
Proof.
  induction lens as [|l rest IH]; intros e Hpos i j a b Hij Hi Hj.
  - destruct i as [|[|i]], j as [|[|j]]; simpl in *; try discriminate; lia.
  - inversion Hpos as [|? ? Hl Hrest]; subst.
    destruct j as [|j]; [lia|].
    destruct i as [|i].
    + cbn [nth_error] in Hi, Hj. injection Hi as <-.
      apply offsets_from_above in Hj; [lia | assumption].
    + simpl in Hi, Hj.
      apply (IH (e + l + 1)%Z Hrest i j a b); [lia | exact Hi | exact Hj].
Qed.

(** X7.  The table has one entry more than the text has lines, and it
    goes up at every step: no two lines start at the same offset. *)
Theorem cumulativeLineLengths_increasing (text : jsstring) :
  length (cumulativeLineLengths text) = S (length (String_split LF text)) /\
  increasing (cumulativeLineLengths text).
Proof.
  rewrite cumulativeLineLengths_recurrence. unfold LineOffsetTable. split.
  - cbn [length]. now rewrite offsets_from_length, length_map.
  - apply offsets_from_increasing, line_lengths_nonneg.
Qed.

Lemma String_join_cons sep l l' rest :
  String_join sep (l :: l' :: rest) = l ++ sep :: String_join sep (l' :: rest).
Proof. reflexivity. Qed.

Lemma String_join_head sep l rest :
  firstn (length l) (String_join sep (l :: rest)) = l.
Proof.
  destruct rest as [|l' rest].
  - apply firstn_all.
  - rewrite String_join_cons, firstn_app, Nat.sub_diag, firstn_all.
    cbn [firstn]. apply app_nil_r.
Qed.

(** In the joined lines, the entry of the table for a line is where
    the line stands. *)
Lemma offsets_locate_line lines : forall e i a l,
  nth_error (e :: offsets_from e (List.map (@len code_unit) lines)) i = Some a ->
  nth_error lines i = Some l ->
  (e <= a)%Z /\
  firstn (length l) (skipn (Z.to_nat (a - e)) (String_join LF lines)) = l.
Proof.
  induction lines as [|l0 rest IH]; intros e i a l Ha Hl.
  - destruct i; discriminate.
  - destruct i as [|i].
    + cbn [nth_error] in Ha, Hl. injection Ha as <-. injection Hl as <-.
      split; [lia|]. rewrite Z.sub_diag. cbn [Z.to_nat skipn].
      apply String_join_head.
    + cbn [nth_error List.map offsets_from] in Ha, Hl.
      destruct (IH (e + len l0 + 1)%Z i a l Ha Hl) as [Hle Hat].
      pose proof (len_nonneg l0) as Hl0.
      split; [lia|].
      destruct rest as [|l1 rest']; [destruct i; discriminate|].
      rewrite String_join_cons.
      replace (Z.to_nat (a - e))
        with (length (l0 ++ [LF]) + Z.to_nat (a - (e + len l0 + 1)))%nat
        by (rewrite length_app; unfold len in *; simpl; lia).
      change (l0 ++ LF :: String_join LF (l1 :: rest'))
        with (l0 ++ [LF] ++ String_join LF (l1 :: rest')).
      rewrite app_assoc, skipn_app, skipn_all2 by lia.
      replace (length (l0 ++ [LF]) + Z.to_nat (a - (e + len l0 + 1))
               - length (l0 ++ [LF]))%nat
        with (Z.to_nat (a - (e + len l0 + 1))) by lia.
      exact Hat.
Qed.

(** X8.  The entry of the table at the index of a line is the offset
    at which that line starts in the text. *)
Theorem cumulativeLineLengths_line_start
    (text : jsstring) (i : nat) (l : jsstring) (a : Z) :
  nth_error (String_split LF text) i = Some l ->
  nth_error (cumulativeLineLengths text) i = Some a ->
  (0 <= a)%Z /\ firstn (length l) (skipn (Z.to_nat a) text) = l.
Proof.
  intros Hl Ha. rewrite cumulativeLineLengths_recurrence in Ha.
  unfold LineOffsetTable in Ha.
  destruct (offsets_locate_line _ _ _ _ _ Ha Hl) as [Hle Hat].
  rewrite String_join_split, Z.sub_0_r in Hat. now split.
Qed.

Lemma cumulativeLineLengths_line_start_witness :
  nth_error (String_split LF (js "ab" ++ [LF] ++ js "cd")) 1 = Some (js "cd") /\
  nth_error (cumulativeLineLengths (js "ab" ++ [LF] ++ js "cd")) 1 = Some 3%Z /\
  firstn 2 (skipn 3 (js "ab" ++ [LF] ++ js "cd")) = js "cd".
Proof.
  split; [reflexivity|]. split; [reflexivity|].
  exact (proj2 (cumulativeLineLengths_line_start
                  (js "ab" ++ [LF] ++ js "cd") 1 (js "cd") 3 eq_refl eq_refl)).
Defined.

(** ** Decoding the selection, continued *)

(** X9.  Whatever the query, the selection is made of its two points,
    each with its own column, in one order or the other, and the line
    of the end, an unset line counting as 0, is never below the line of
    the start. *)
Theorem getSelectionFromQuery_normalized (q : jsstring) :
  let p := URLSearchParams_new q in
  let cursor := {| line := getPosFromPGURLParam p (js "pln");
                   column := getPosFromPGURLParam p (js "pc") |} in
  let anchor := {| line := getPosFromPGURLParam p (js "ssl");
                   column := getPosFromPGURLParam p (js "ssc") |} in
  let sel := getSelectionFromQuery q in
  (sel = {| startLine := line cursor; startColumn := column cursor;
            endLine := line anchor; endColumn := column anchor |} \/
   sel = {| startLine := line anchor; startColumn := column anchor;
            endLine := line cursor; endColumn := column cursor |}) /\
  number_ltb (nullish (endLine sel) (FinZ 0))
             (nullish (startLine sel) (FinZ 0)) = false.
Proof.
  cbv zeta. unfold getSelectionFromQuery. cbv zeta.
  rewrite orderedSelection_cases. cbn [line column].
  destruct (number_ltb
              (nullish (getPosFromPGURLParam (URLSearchParams_new q) (js "ssl"))
                       (FinZ 0))
              (nullish (getPosFromPGURLParam (URLSearchParams_new q) (js "pln"))
                       (FinZ 0))) eqn:Hlt.
  - split; [now right|]. cbn [startLine endLine].
    now apply number_ltb_asym.
  - split; [now left|]. cbn [startLine endLine]. exact Hlt.
Qed.

Lemma Qcompare_ge_1 q :
  Qcompare q (inject_Z 1) <> Lt ->
  Qcompare (inject_Z 0) (q + - inject_Z 1) <> Gt.
Proof.
  intros H. apply Qle_alt.
  assert (Hq : (inject_Z 1 <= q)%Q).
  { apply Qnot_lt_le. intros Hlt. apply H. now apply Qlt_alt. }
  apply Qle_minus_iff in Hq. exact Hq.
Qed.

(** X10.  A position that is decoded to a value is never negative: it
    is a number from 0 up, or NaN. *)
Theorem getPosFromPGURLParam_not_negative
    (params : URLSearchParams) (name : jsstring) (v : number) :
  getPosFromPGURLParam params name = Some v ->
  v = NaN \/ number_leb (FinZ 0) v = true.
Proof.
  rewrite getPosFromPGURLParam_cases.
  destruct (URLSearchParams_get params name) as [p|]; [|discriminate].
  destruct (Number p) as [| |n|] eqn:Hn; cbn [number_ltb FinZ].
  - intros H. injection H as <-. now left.
  - discriminate.
  - destruct (Qcompare n (inject_Z 1)) eqn:Hc; try discriminate;
      intros H; injection H as <-; right; unfold number_sub;
      cbn [number_opp number_add number_leb FinZ];
      pose proof (Qcompare_ge_1 n) as Hge; rewrite Hc in Hge;
      destruct (Qcompare (inject_Z 0) (n + - inject_Z 1));
      try reflexivity; exfalso; apply Hge; congruence.
  - intros H. injection H as <-. now right.
Qed.

Lemma getPosFromPGURLParam_not_negative_witness :
  getPosFromPGURLParam (URLSearchParams_new (js "pln=3")) (js "pln")
    = Some (FinZ 2) /\
  (FinZ 2 = NaN \/ number_leb (FinZ 0) (FinZ 2) = true).
Proof.
  assert (H : getPosFromPGURLParam (URLSearchParams_new (js "pln=3")) (js "pln")
              = Some (FinZ 2)) by (vm_compute; reflexivity).
  split; [exact H|].
  exact (getPosFromPGURLParam_not_negative _ _ _ H).
Defined.

(** ** The range of the snippet, continued *)

Lemma find_first {A : Type} (p : A -> bool) (l : list A) x :
  List.find p l = Some x ->
  exists i, nth_error l i = Some x /\ p x = true /\
            forall j y, (j < i)%nat -> nth_error l j = Some y -> p y = false.
Proof.
  induction l as [|a l IH]; [discriminate|].
  cbn [find]. destruct (p a) eqn:Hp.
  - intros H. injection H as <-. exists 0%nat. repeat split; trivial.
    intros j y Hj. lia.
  - intros H. destruct (IH H) as (i & Hi & Hx & Hbefore).
    exists (S i). repeat split; trivial.
    intros [|j] y Hj Hy.
    + simpl in Hy. injection Hy as <-. exact Hp.
    + simpl in Hy. apply (Hbefore j y); [lia | exact Hy].
Qed.

Lemma Math_min_NaN_r a : Math_min a NaN = NaN.
Proof. destruct a; reflexivity. Qed.

Lemma number_sub_NaN_r a : number_sub a NaN = NaN.
Proof. destruct a; reflexivity. Qed.

(** X11.  When the start line is a line of the table and the end line
    is unset, 0 or NaN, the range ends at the least entry of the table
    above [min(startChar + 256, text.length)]; such an entry always
    exists, so the alternative behind [??] is never taken. *)
Theorem rangeOf_default_end (text : jsstring) (sel : Selection) (sc : Z) :
  array_get (cumulativeLineLengths text) (nullish (startLine sel) (FinZ 0))
    = Some sc ->
  match endLine sel with Some l => number_truthy l = false | None => True end ->
  exists ec,
    endChar (rangeOf text sel) = Some ec /\
    Array_find (fun l => (Z.min (sc + DEFAULT_EMBED_LENGTH) (len text) <? l)%Z)
               (cumulativeLineLengths text) = Some ec /\
    In ec (cumulativeLineLengths text) /\
    (Z.min (sc + DEFAULT_EMBED_LENGTH) (len text) < ec)%Z /\
    forall x, In x (cumulativeLineLengths text) ->
              (Z.min (sc + DEFAULT_EMBED_LENGTH) (len text) < x)%Z ->
              (ec <= x)%Z.
Proof.
  intros Hsc Hend.
  set (cll := cumulativeLineLengths text) in *.
  set (c := Z.min (sc + DEFAULT_EMBED_LENGTH) (len text)).
  assert (Hfind : exists ec, Array_find (fun l => (c <? l)%Z) cll = Some ec).
  { destruct (Array_find (fun l => (c <? l)%Z) cll) as [ec|] eqn:Hf;
      [now exists ec|]. exfalso.
    pose proof (cumulativeLineLengths_last text) as Hlast. fold cll in Hlast.
    pose proof (cumulativeLineLengths_nonempty text) as Hne. fold cll in Hne.
    pose proof (nth_error_last cll 0%Z Hne) as Hn. apply nth_error_In in Hn.
    pose proof (find_none _ _ Hf _ Hn) as Hp. cbv beta in Hp.
    apply Z.ltb_ge in Hp. unfold c in Hp. lia. }
  destruct Hfind as (ec & Hfind).
  exists ec.
  assert (Hend' : endChar (rangeOf text sel) = Some ec).
  { unfold rangeOf. cbv zeta. cbn [endChar]. fold cll. rewrite Hsc.
    cbn [ToNumber]. rewrite FinZ_add, FinZ_min. fold c.
    assert (Hsame : Array_find (fun l => number_ltb (FinZ c) (FinZ l)) cll
                    = Some ec).
    { rewrite <- Hfind. unfold Array_find. clear.
      induction cll as [|a l IH]; [reflexivity|].
      cbn [find]. rewrite FinZ_ltb, IH. reflexivity. }
    rewrite Hsame.
    destruct (endLine sel) as [l|]; [now rewrite Hend | reflexivity]. }
  split; [exact Hend'|]. split; [exact Hfind|].
  destruct (find_first _ _ _ Hfind) as (i & Hi & Hp & Hbefore).
  apply Z.ltb_lt in Hp.
  split; [apply (nth_error_In _ _ Hi)|]. split; [exact Hp|].
  intros x Hx Hcx. apply In_nth_error in Hx as [j Hj].
  destruct (Nat.lt_ge_cases j i) as [Hlt|Hge].
  - specialize (Hbefore j x Hlt Hj). apply Z.ltb_ge in Hbefore. lia.
  - apply (cumulativeLineLengths_nondecreasing text i j ec x Hge Hi Hj).
Qed.

Lemma rangeOf_default_end_witness :
  let text := js "ab" ++ [LF] ++ js "cd" in
  let sel := getSelectionFromQuery (js "pln=1&pc=3&ssl=1&ssc=1") in
  array_get (cumulativeLineLengths text) (nullish (startLine sel) (FinZ 0))
    = Some 0%Z /\
  number_truthy (FinZ 0) = false /\
  exists ec, endChar (rangeOf text sel) = Some ec /\ (5 < ec)%Z.
Proof.
  cbv zeta. split; [reflexivity|]. split; [reflexivity|].
  destruct (rangeOf_default_end (js "ab" ++ [LF] ++ js "cd")
              (getSelectionFromQuery (js "pln=1&pc=3&ssl=1&ssc=1")) 0
              eq_refl eq_refl) as (ec & He & _ & _ & Hc & _).
  exists ec. split; [exact He | exact Hc].
Defined.

(** X12.  A selection whose start line, or whose end line when it is
    taken into account, is no index of the table gives an empty
    extract, whatever the formatter returns. *)
Theorem rangeOf_outside_empty
    (F : Formatter) (text : jsstring) (sel : Selection) (s : Snippet) :
  array_get (cumulativeLineLengths text) (nullish (startLine sel) (FinZ 0))
    = None \/
  (exists l, endLine sel = Some l /\ number_truthy l = true /\
             array_get (cumulativeLineLengths text) l = None) ->
  snippetOf text sel = Returned s ->
  maxEnd s = NaN /\ extract s = [].
Proof.
  intros Hout Hs.
  destruct (snippetOf_fields F text sel s Hs) as (_ & Hpe & Hme & Hex).
  cbv zeta in *.
  assert (Hnan : maxEnd s = NaN).
  { rewrite Hme. destruct Hout as [Hst|(l & Hl & Ht & Ho)].
    - unfold rangeOf at 1. cbv zeta. cbn [startChar]. rewrite Hst.
      cbn [ToNumber number_add]. apply Math_min_NaN_r.
    - rewrite Hpe, (rangeOf_endChar_truthy text sel l Hl Ht), Ho.
      cbn [ToNumber]. rewrite !number_sub_NaN_r. reflexivity. }
  split; [exact Hnan|]. rewrite Hex, Hnan. apply String_slice_NaN.
Qed.

Lemma rangeOf_outside_empty_witness :
  let text := js "ab" ++ [LF] ++ js "cd" in
  let sel := getSelectionFromQuery (js "pln=100") in
  endLine sel = Some (FinZ 99) /\
  array_get (cumulativeLineLengths text) (FinZ 99) = None /\
  exists s,
    @snippetOf without_semicolons text sel = Returned s /\ extract s = [].
Proof.
  cbv zeta. split; [reflexivity|]. split; [reflexivity|].
  eexists. split; [reflexivity|].
  apply (rangeOf_outside_empty without_semicolons
           (js "ab" ++ [LF] ++ js "cd")
           (getSelectionFromQuery (js "pln=100")));
    [|reflexivity].
  right. exists (FinZ 99). repeat split.
Defined.

(** ** Regular expressions: what a match is made of *)

(** Every result of the backtracking matcher is one of the ways the
    pattern can take text, followed by a success of the continuation. *)
Lemma rmatch_sound r : forall k s res,
  rmatch r k s = Some res ->
  exists s', spans r s s' /\ k s' = Some res.
Proof.
  induction r as [|p|r1 IH1 r2 IH2|r1 IH1 r2 IH2|r1 IH1|i r1 IH1];
    intros k s res H.
  - cbn [rmatch] in H. exists s. split; [constructor | exact H].
  - cbn [rmatch] in H.
    destruct (ahead s) as [|c rest] eqn:Ha; [discriminate|].
    destruct (p c) eqn:Hp; [|discriminate].
    eexists. split; [econstructor; eassumption | exact H].
  - cbn [rmatch] in H.
    apply IH1 in H as (s1 & H1 & H).
    apply IH2 in H as (s2 & H2 & H).
    exists s2. split; [econstructor; eassumption | exact H].
  - cbn [rmatch] in H.
    destruct (rmatch r1 k s) as [x|] eqn:E.
    + injection H as ->. apply IH1 in E as (s' & H1 & E).
      exists s'. split; [now apply spans_Alt_l | exact E].
    + apply IH2 in H as (s' & H2 & H).
      exists s'. split; [now apply spans_Alt_r | exact H].
  - assert (Hiter : forall fuel s0,
      (fix iterate (fuel : nat) (s : mstate) : option mstate :=
         match fuel with
         | O => k s
         | S fuel' =>
             match rmatch r1
                     (fun s' => if (pos s <? pos s')%nat
                                then iterate fuel' s' else None) s with
             | Some s' => Some s'
             | None => k s
             end
         end) fuel s0 = Some res ->
      exists s', spans (Star r1) s0 s' /\ k s' = Some res).
    { induction fuel as [|fuel IHf]; intros s0 H0.
      - exists s0. split; [constructor | exact H0].
      - match type of H0 with
        | match ?m with _ => _ end = _ => destruct m as [x|] eqn:E
        end.
        + injection H0 as ->. apply IH1 in E as (s1 & H1 & E).
          destruct (Nat.ltb_spec (pos s0) (pos s1)) as [Hlt|]; [|discriminate].
          apply IHf in E as (s2 & H2 & E).
          exists s2. split; [eapply spans_Star_S; eassumption | exact E].
        + exists s0. split; [constructor | exact H0]. }
    exact (Hiter (S (length (ahead s))) s H).
  - cbn [rmatch] in H.
    apply IH1 in H as (s' & H1 & H).
    eexists. split; [econstructor; eassumption | exact H].
Qed.

(** What a pattern takes is a piece of the input, and the offset moves
    by its length. *)
Lemma spans_text r s s' :
  spans r s s' ->
  exists t, ahead s = t ++ ahead s' /\ pos s' = (pos s + length t)%nat.
Proof.
  induction 1 as [s|p s c rest Ha Hp|r1 r2 s s1 s2 _ IH1 _ IH2
                 |r1 r2 s s' _ IH|r1 r2 s s' _ IH|r s
                 |r s s1 s2 _ IH1 Hlt _ IH2|i r s s' _ IH].
  - exists []. split; [reflexivity | simpl; lia].
  - exists [c]. split; [exact Ha | simpl; lia].
  - destruct IH1 as (t1 & Ha1 & Hp1), IH2 as (t2 & Ha2 & Hp2).
    exists (t1 ++ t2). rewrite Ha1, Ha2, length_app, <- app_assoc.
    split; [reflexivity | lia].
  - exact IH.
  - exact IH.
  - exists []. split; [reflexivity | simpl; lia].
  - destruct IH1 as (t1 & Ha1 & Hp1), IH2 as (t2 & Ha2 & Hp2).
    exists (t1 ++ t2). rewrite Ha1, Ha2, length_app, <- app_assoc.
    split; [reflexivity | lia].
  - exact IH.
Qed.

(** A pattern without groups leaves the captures as they were. *)
Lemma spans_caps r s s' :
  spans r s s' -> group_free r = true -> caps s' = caps s.
Proof.
  induction 1 as [s|p s c rest Ha Hp|r1 r2 s s1 s2 _ IH1 _ IH2
                 |r1 r2 s s' _ IH|r1 r2 s s' _ IH|r s
                 |r s s1 s2 _ IH1 Hlt _ IH2|i r s s' _ IH];
    cbn [group_free]; intros Hg; try reflexivity.
  - apply andb_prop in Hg as [Hg1 Hg2]. now rewrite IH2, IH1.
  - apply andb_prop in Hg as [Hg1 Hg2]. now apply IH.
  - apply andb_prop in Hg as [Hg1 Hg2]. now apply IH.
  - now rewrite IH2, IH1.
  - discriminate.
Qed.

Lemma firstn_taken (t rest : jsstring) (p p' : nat) :
  p' = (p + length t)%nat -> firstn (p' - p) (t ++ rest) = t.
Proof.
  intros ->. replace (p + length t - p)%nat with (length t) by lia.
  rewrite firstn_app, Nat.sub_diag, firstn_all. cbn [firstn]. apply app_nil_r.
Qed.

Lemma spans_Seq_inv r1 r2 s s2 :
  spans (Seq r1 r2) s s2 -> exists s1, spans r1 s s1 /\ spans r2 s1 s2.
Proof. inversion 1; subst; eauto. Qed.

Lemma spans_Alt_inv r1 r2 s s' :
  spans (Alt r1 r2) s s' -> spans r1 s s' \/ spans r2 s s'.
Proof. inversion 1; subst; auto. Qed.

Lemma spans_Eps_inv s s' : spans Eps s s' -> s' = s.
Proof. inversion 1; subst; reflexivity. Qed.

Lemma spans_Chr_inv p s s' :
  spans (Chr p) s s' ->
  exists c, p c = true /\ ahead s = c :: ahead s' /\
            pos s' = S (pos s) /\ caps s' = caps s.
Proof. inversion 1; subst. exists c. cbn. auto. Qed.

Lemma spans_Group_inv i r s s'' :
  spans (Group i r) s s'' ->
  exists s', spans r s s' /\ pos s'' = pos s' /\ ahead s'' = ahead s' /\
             caps s'' = (i, firstn (pos s' - pos s) (ahead s)) :: caps s'.
Proof. inversion 1; subst. eexists. cbn. eauto. Qed.

(** The literal pattern of a text takes exactly that text. *)
Lemma spans_units cs : forall s s',
  spans (fold_right (fun c r => Seq (Chr (N.eqb c)) r) Eps cs) s s' ->
  ahead s = cs ++ ahead s' /\ pos s' = (pos s + length cs)%nat /\
  caps s' = caps s.
Proof.
  induction cs as [|c cs IH]; intros s s' H; cbn [fold_right] in H.
  - apply spans_Eps_inv in H. subst. repeat split. simpl; lia.
  - apply spans_Seq_inv in H as (s1 & H1 & H2).
    apply spans_Chr_inv in H1 as (c' & Hc & Ha & Hp & Hcaps).
    apply N.eqb_eq in Hc. subst c'.
    apply IH in H2 as (Ha2 & Hp2 & Hc2).
    rewrite Ha, Ha2, Hp2, Hp, Hc2, Hcaps. repeat split. simpl; lia.
Qed.

Lemma spans_Lit str s s' :
  spans (Lit str) s s' ->
  ahead s = js str ++ ahead s' /\ pos s' = (pos s + length (js str))%nat /\
  caps s' = caps s.
Proof. apply spans_units. Qed.

(** A repeated class takes units of the class only. *)
Lemma spans_Star_Chr p s s' :
  spans (Star (Chr p)) s s' ->
  exists t, ahead s = t ++ ahead s' /\ pos s' = (pos s + length t)%nat /\
            caps s' = caps s /\ Forall (fun c => p c = true) t.
Proof.
  intros H. remember (Star (Chr p)) as r eqn:Hr.
  induction H as [s|p0 s c rest Ha Hp|r1 r2 s s1 s2 _ IH1 _ IH2
                 |r1 r2 s s' _ IH|r1 r2 s s' _ IH|r s
                 |r s s1 s2 H1 _ Hlt _ IH2|i r s s' _ IH];
    try discriminate Hr.
  - exists []. repeat split; [simpl; lia | constructor].
  - injection Hr as ->.
    apply spans_Chr_inv in H1 as (c & Hc & Ha & Hp & Hcaps).
    destruct (IH2 eq_refl) as (t & Ha2 & Hp2 & Hc2 & Hall).
    exists (c :: t). rewrite Ha, Ha2, Hp2, Hp, Hc2, Hcaps.
    repeat split; [simpl; lia | now constructor].
Qed.

Lemma spans_Plus_Chr p s s' :
  spans (Plus (Chr p)) s s' ->
  exists t, t <> [] /\ ahead s = t ++ ahead s' /\
            pos s' = (pos s + length t)%nat /\
            caps s' = caps s /\ Forall (fun c => p c = true) t.
Proof.
  intros H. apply spans_Seq_inv in H as (s1 & H1 & H2).
  apply spans_Chr_inv in H1 as (c & Hc & Ha & Hp & Hcaps).
  apply spans_Star_Chr in H2 as (t & Ha2 & Hp2 & Hc2 & Hall).
  exists (c :: t). rewrite Ha, Ha2, Hp2, Hp, Hc2, Hcaps.
  repeat split; [discriminate | simpl; lia | now constructor].
Qed.

(** A match found by [exec] sits somewhere in the input, and is one of
    the ways the pattern can take text from there. *)
Lemma exec_from_sound r n : forall s start m,
  exec_from r n start s = Some m ->
  exists before rest s',
    s = before ++ rest /\
    spans r {| pos := start + length before; ahead := rest; caps := [] |} s' /\
    m = Some (firstn (pos s' - (start + length before)) rest)
          :: List.map (fun i => capture i (caps s')) (seq 1 n).
Proof.
  induction s as [|c s IH]; intros start m H; cbn [exec_from] in H.
  - destruct (rmatch r Some _) as [s'|] eqn:E; [|discriminate].
    injection H as <-. apply rmatch_sound in E as (s1 & Hs & E).
    injection E as ->.
    exists [], [], s'. cbn [length]. rewrite Nat.add_0_r. auto.
  - destruct (rmatch r Some _) as [s'|] eqn:E.
    + injection H as <-. apply rmatch_sound in E as (s1 & Hs & E).
      injection E as ->.
      exists [], (c :: s), s'. cbn [length]. rewrite Nat.add_0_r. auto.
    + apply IH in H as (before & rest & s' & Hsplit & Hs & Hm).
      exists (c :: before), rest, s'. cbn [length].
      replace (start + S (length before))%nat
        with (S start + length before)%nat by lia.
      subst s. auto.
Qed.

(** ** The two patterns of the bot *)

Lemma spans_Opt_inv r s s' : spans (Opt r) s s' -> spans r s s' \/ s' = s.
Proof.
  intros H. apply spans_Alt_inv in H as [H|H]; [now left|].
  right. now apply spans_Eps_inv.
Qed.

Lemma CODEBLOCK_REGEX_shape (text : jsstring) (m : MatchArray) :
  RegExp_exec CODEBLOCK_REGEX text = Some m ->
  exists before t code after,
    text = before ++ group m 0 ++ after /\
    fence_tag t /\ code <> [] /\
    m = [Some (CODEBLOCK ++ t ++ [LF] ++ code ++ CODEBLOCK); Some code].
Proof.
  unfold RegExp_exec. intros H.
  apply exec_from_sound in H as (before & rest & s' & Hsplit & Hs & Hm).
  cbn [source CODEBLOCK_REGEX groups] in Hs, Hm.
  apply spans_Seq_inv in Hs as (s1 & H1 & Hs).
  apply spans_Seq_inv in Hs as (s2 & H2 & Hs).
  apply spans_Seq_inv in Hs as (s3 & H3 & Hs).
  apply spans_Seq_inv in Hs as (s4 & H4 & H5).
  apply spans_Lit in H1 as (A1 & P1 & C1).
  assert (Htag : exists t, fence_tag t /\ ahead s1 = t ++ ahead s2 /\
                           pos s2 = (pos s1 + length t)%nat /\
                           caps s2 = caps s1).
  { apply spans_Opt_inv in H2 as [H2| ->].
    - apply spans_Alt_inv in H2 as [H2|H2];
        apply spans_Lit in H2 as (A2 & P2 & C2).
      + exists (js "ts"). unfold fence_tag. auto.
      + exists (js "typescript"). unfold fence_tag. auto.
    - exists []. unfold fence_tag. repeat split; auto; simpl; lia. }
  destruct Htag as (t & Ht & A2 & P2 & C2).
  apply spans_Chr_inv in H3 as (c & Hc & A3 & P3 & C3).
  apply N.eqb_eq in Hc. subst c.
  apply spans_Group_inv in H4 as (s4' & H4 & P4 & A4 & C4).
  apply spans_Plus_Chr in H4 as (code & Hne & A4' & P4' & C4' & _).
  apply spans_Lit in H5 as (A5 & P5 & C5).
  cbn [ahead pos caps] in *.
  assert (Hrest : rest = (CODEBLOCK ++ t ++ [LF] ++ code ++ CODEBLOCK)
                           ++ ahead s').
  { rewrite A1, A2, A3, A4', <- A4, A5. unfold CODEBLOCK.
    rewrite <- !app_assoc. reflexivity. }
  assert (Hcode : firstn (pos s4' - pos s3) (ahead s3) = code).
  { rewrite A4'. now apply firstn_taken. }
  assert (Hm' : m = [Some (CODEBLOCK ++ t ++ [LF] ++ code ++ CODEBLOCK);
                     Some code]).
  { rewrite Hm, C5, C4, Hcode, Hrest. cbn [seq List.map capture Nat.eqb].
    f_equal. f_equal. apply firstn_taken.
    rewrite P5, P4, P4', P3, P2, P1, !length_app. unfold CODEBLOCK.
    cbn [length]. lia. }
  exists before, t, code, (ahead s'). split; [|auto].
  rewrite Hm'. cbn [group nth_error]. rewrite Hsplit, Hrest.
  now rewrite <- !app_assoc.
Qed.

(** The code a code-block match captures is never empty. *)
Lemma CODEBLOCK_REGEX_code text m :
  RegExp_exec CODEBLOCK_REGEX text = Some m -> group m 1 <> [].
Proof.
  intros H.
  destruct (CODEBLOCK_REGEX_shape text m H)
    as (before & t & code & after & _ & _ & Hc & Hm).
  rewrite Hm. exact Hc.
Qed.

(** X13.  A match of the code-block pattern is a piece of the text
    made of a fence, nothing or [ts] or [typescript], a newline, a
    code that is never empty, and a fence; its group 1 is that code. *)
Theorem CODEBLOCK_REGEX_match (text : jsstring) (m : MatchArray) :
  RegExp_exec CODEBLOCK_REGEX text = Some m ->
  exists before t code after,
    text = before ++ group m 0 ++ after /\
    fence_tag t /\ code <> [] /\
    m = [Some (CODEBLOCK ++ t ++ [LF] ++ code ++ CODEBLOCK); Some code].
Proof. apply CODEBLOCK_REGEX_shape. Qed.

Lemma CODEBLOCK_REGEX_match_witness :
  RegExp_exec CODEBLOCK_REGEX fencedText
    = Some [Some fencedText; Some (js "const x = 1" ++ [LF])] /\
  exists (before t code after : jsstring),
    fencedText = before ++ fencedText ++ after /\ fence_tag t /\ code <> [].
Proof.
  assert (H : RegExp_exec CODEBLOCK_REGEX fencedText
              = Some [Some fencedText; Some (js "const x = 1" ++ [LF])])
    by (vm_compute; reflexivity).
  split; [exact H|].
  destruct (CODEBLOCK_REGEX_match fencedText _ H)
    as (before & t & code & after & Hs & Ht & Hc & _).
  exists before, t, code, after. auto.
Defined.

Lemma spans_upto4_Lit s s' :
  spans (upto4 (Lit "=")) s s' ->
  exists n, (n <= 4)%nat /\ ahead s = repeat 61%N n ++ ahead s' /\
            pos s' = (pos s + n)%nat /\ caps s' = caps s.
Proof.
  unfold upto4. intros H.
  apply spans_Opt_inv in H as [H| ->];
    [|exists 0%nat; repeat split; simpl; lia].
  apply spans_Seq_inv in H as (s1 & H1 & H).
  apply spans_Lit in H1 as (A1 & P1 & C1).
  apply spans_Opt_inv in H as [H| ->];
    [|exists 1%nat; rewrite A1, P1, C1; repeat split; simpl; lia].
  apply spans_Seq_inv in H as (s2 & H2 & H).
  apply spans_Lit in H2 as (A2 & P2 & C2).
  apply spans_Opt_inv in H as [H| ->];
    [|exists 2%nat; rewrite A1, A2, P2, P1, C2, C1; repeat split; simpl; lia].
  apply spans_Seq_inv in H as (s3 & H3 & H).
  apply spans_Lit in H3 as (A3 & P3 & C3).
  apply spans_Opt_inv in H as [H| ->];
    [|exists 3%nat; rewrite A1, A2, A3, P3, P2, P1, C3, C2, C1;
      repeat split; simpl; lia].
  apply spans_Lit in H as (A4 & P4 & C4).
  exists 4%nat. rewrite A1, A2, A3, A4, P4, P3, P2, P1, C4, C3, C2, C1.
  repeat split; simpl; lia.
Qed.

(** X14.  A match of the link pattern is a piece of the text made of
    an address that begins with [http], the query, [#code/] and the
    payload; group 1 is the query and group 2 the payload, which is
    never empty: one or more letters, digits, [-], [+] or [_], then at
    most four [=]. *)
Theorem PLAYGROUND_REGEX_match (text : jsstring) (m : MatchArray) :
  RegExp_exec PLAYGROUND_REGEX text = Some m ->
  exists before address query body n after,
    text = before ++ group m 0 ++ after /\
    m = [Some (js "http" ++ address ++ query ++ js "#code/"
                 ++ body ++ repeat 61%N n);
         Some query; Some (body ++ repeat 61%N n)] /\
    body <> [] /\ Forall (fun c => is_payload_unit c = true) body /\
    (n <= 4)%nat.
Proof.
  unfold RegExp_exec. intros H.
  apply exec_from_sound in H as (before & rest & s' & Hsplit & Hs & Hm).
  cbn [source PLAYGROUND_REGEX groups] in Hs, Hm.
  apply spans_Seq_inv in Hs as (s1 & H1 & Hs).
  apply spans_Seq_inv in Hs as (s2 & H2 & Hs).
  apply spans_Seq_inv in Hs as (s3 & H3 & Hs).
  apply spans_Seq_inv in Hs as (s4 & H4 & Hs).
  apply spans_Seq_inv in Hs as (s5 & H5 & Hs).
  apply spans_Seq_inv in Hs as (s6 & H6 & Hs).
  apply spans_Seq_inv in Hs as (s7 & H7 & Hs).
  apply spans_Seq_inv in Hs as (s8 & H8 & Hs).
  apply spans_Seq_inv in Hs as (s9 & H9 & Hs).
  apply spans_Seq_inv in Hs as (s10 & H10 & H11).
  apply spans_Lit in H1 as (A1 & P1 & C1).
  pose proof (spans_caps _ _ _ H2 eq_refl) as C2.
  apply spans_text in H2 as (t2 & A2 & P2).
  pose proof (spans_caps _ _ _ H3 eq_refl) as C3.
  apply spans_text in H3 as (t3 & A3 & P3).
  pose proof (spans_caps _ _ _ H4 eq_refl) as C4.
  apply spans_text in H4 as (t4 & A4 & P4).
  pose proof (spans_caps _ _ _ H5 eq_refl) as C5.
  apply spans_text in H5 as (t5 & A5 & P5).
  pose proof (spans_caps _ _ _ H6 eq_refl) as C6.
  apply spans_text in H6 as (t6 & A6 & P6).
  pose proof (spans_caps _ _ _ H7 eq_refl) as C7.
  apply spans_text in H7 as (t7 & A7 & P7).
  pose proof (spans_caps _ _ _ H8 eq_refl) as C8.
  apply spans_text in H8 as (t8 & A8 & P8).
  apply spans_Group_inv in H9 as (s9' & H9 & P9 & A9 & C9).
  pose proof (spans_caps _ _ _ H9 eq_refl) as C9'.
  apply spans_text in H9 as (query & A9' & P9').
  apply spans_Lit in H10 as (A10 & P10 & C10).
  apply spans_Group_inv in H11 as (s11 & H11 & P11 & A11 & C11).
  apply spans_Seq_inv in H11 as (s12 & H12 & H13).
  apply spans_Plus_Chr in H12 as (body & Hne & A12 & P12 & C12 & Hall).
  apply spans_upto4_Lit in H13 as (n & Hn & A13 & P13 & C13).
  cbn [ahead pos caps] in *.
  set (address := t2 ++ t3 ++ t4 ++ t5 ++ t6 ++ t7 ++ t8).
  assert (Hrest : rest = (js "http" ++ address ++ query ++ js "#code/"
                            ++ body ++ repeat 61%N n) ++ ahead s').
  { rewrite A1, A2, A3, A4, A5, A6, A7, A8, A9', <- A9, A10, A12, A13, <- A11.
    unfold address. rewrite <- !app_assoc. reflexivity. }
  assert (Hq : firstn (pos s9' - pos s8) (ahead s8) = query).
  { rewrite A9'. now apply firstn_taken. }
  assert (Hp : firstn (pos s11 - pos s10) (ahead s10) = body ++ repeat 61%N n).
  { rewrite A12, A13, app_assoc. apply firstn_taken.
    rewrite P13, P12, length_app, repeat_length. lia. }
  assert (Hm' : m = [Some (js "http" ++ address ++ query ++ js "#code/"
                             ++ body ++ repeat 61%N n);
                     Some query; Some (body ++ repeat 61%N n)]).
  { rewrite Hm, C11, Hp, C13, C12, C10, C9, Hq, Hrest.
    cbn [seq List.map capture Nat.eqb].
    f_equal. f_equal. apply firstn_taken.
    rewrite P11, P13, P12, P10, P9, P9', P8, P7, P6, P5, P4, P3, P2, P1.
    unfold address. rewrite !length_app, repeat_length. lia. }
  exists before, address, query, body, n, (ahead s').
  split; [|auto].
  rewrite Hm'. cbn [group nth_error]. rewrite Hsplit, Hrest.
  now rewrite <- !app_assoc.
Qed.

Lemma PLAYGROUND_REGEX_match_witness :
  RegExp_exec PLAYGROUND_REGEX linkText
    = Some [Some linkText; Some []; Some (js "MYewdg")] /\
  exists (body : jsstring) n,
    js "MYewdg" = body ++ repeat 61%N n /\ body <> [] /\ (n <= 4)%nat.
Proof.
  assert (H : RegExp_exec PLAYGROUND_REGEX linkText
              = Some [Some linkText; Some []; Some (js "MYewdg")])
    by (vm_compute; reflexivity).
  split; [exact H|].
  destruct (PLAYGROUND_REGEX_match linkText _ H)
    as (before & address & query & body & n & after & _ & Hm & Hb & _ & Hn).
  exists body, n. injection Hm as _ _ Hp. auto.
Defined.

(** The units a pattern takes are units it allows. *)
Lemma spans_within ok r s s' :
  spans r s s' -> within ok r ->
  exists t, ahead s = t ++ ahead s' /\ pos s' = (pos s + length t)%nat /\
            Forall (fun c => ok c = true) t.
Proof.
  induction 1 as [s|p s c rest Ha Hp|r1 r2 s s1 s2 _ IH1 _ IH2
                 |r1 r2 s s' _ IH|r1 r2 s s' _ IH|r s
                 |r s s1 s2 _ IH1 Hlt _ IH2|i r s s' _ IH];
    cbn [within]; intros Hw.
  - exists []. repeat split; [simpl; lia | constructor].
  - exists [c]. repeat split; [exact Ha | simpl; lia |].
    constructor; [now apply Hw | constructor].
  - destruct Hw as [Hw1 Hw2].
    destruct (IH1 Hw1) as (t1 & Ha1 & Hp1 & Hf1).
    destruct (IH2 Hw2) as (t2 & Ha2 & Hp2 & Hf2).
    exists (t1 ++ t2). rewrite Ha1, Ha2, length_app, <- app_assoc.
    repeat split; [lia | now apply Forall_app].
  - now apply IH.
  - now apply IH.
  - exists []. repeat split; [simpl; lia | constructor].
  - destruct (IH1 Hw) as (t1 & Ha1 & Hp1 & Hf1).
    destruct (IH2 Hw) as (t2 & Ha2 & Hp2 & Hf2).
    exists (t1 ++ t2). rewrite Ha1, Ha2, length_app, <- app_assoc.
    repeat split; [lia | now apply Forall_app].
  - now apply IH.
Qed.

Lemma within_units ok cs :
  Forall (fun c => ok c = true) cs ->
  within ok (fold_right (fun c r => Seq (Chr (N.eqb c)) r) Eps cs).
Proof.
  induction 1 as [|c cs Hc _ IH]; cbn [fold_right within]; [exact I|].
  split; [|exact IH]. intros c' Heq. apply N.eqb_eq in Heq. now subst.
Qed.

Lemma within_Lit ok str :
  forallb ok (js str) = true -> within ok (Lit str).
Proof.
  intros H. apply within_units. apply Forall_forall.
  intros c Hin. exact (proj1 (forallb_forall ok (js str)) H c Hin).
Qed.

Lemma within_Plus ok r : within ok r -> within ok (Plus r).
Proof. intros H. cbn [Plus within]. auto. Qed.

Lemma within_Opt ok r : within ok r -> within ok (Opt r).
Proof. intros H. cbn [Opt within]. auto. Qed.

Lemma is_word_plain c : is_word c = true -> plain_unit c = true.
Proof.
  unfold is_word, plain_unit, is_space, is_digit.
  rewrite !orb_true_iff, !andb_true_iff, !N.leb_le, !N.eqb_eq.
  intros H.
  rewrite !negb_true_iff, !orb_false_iff, !andb_false_iff, !N.leb_gt, !N.eqb_neq.
  lia.
Qed.

Lemma is_param_unit_plain c : is_param_unit c = true -> plain_unit c = true.
Proof.
  unfold is_param_unit, plain_unit.
  rewrite !negb_true_iff, !orb_false_iff, andb_true_iff, !negb_true_iff.
  tauto.
Qed.

Lemma is_payload_unit_plain c : is_payload_unit c = true -> plain_unit c = true.
Proof.
  unfold is_payload_unit, is_word, plain_unit, is_space, is_digit.
  rewrite !orb_true_iff, !andb_true_iff, !N.leb_le, !N.eqb_eq.
  intros H.
  rewrite !negb_true_iff, !orb_false_iff, !andb_false_iff, !N.leb_gt, !N.eqb_neq.
  lia.
Qed.

Lemma plain_not_space c : plain_unit c = true -> not_space c = true.
Proof. unfold plain_unit, not_space. now intros H%andb_prop. Qed.

Lemma within_param : within plain_unit param.
Proof.
  unfold param. cbn [within].
  split; [apply within_Plus; exact is_word_plain|].
  split; [now apply within_Lit|].
  apply within_Plus. exact is_param_unit_plain.
Qed.

Lemma within_query_pattern : within plain_unit query_pattern.
Proof.
  unfold query_pattern. cbn [within].
  split; [apply within_Opt; now apply within_Lit|].
  split; [apply within_Opt, within_param|].
  split; [now apply within_Lit | apply within_param].
Qed.

Lemma within_weaken (ok ok' : code_unit -> bool) r :
  (forall c, ok c = true -> ok' c = true) -> within ok r -> within ok' r.
Proof.
  intros Himp. induction r; cbn [within]; intuition auto.
Qed.

Lemma within_PLAYGROUND_REGEX : within not_space (source PLAYGROUND_REGEX).
Proof.
  cbn [source PLAYGROUND_REGEX].
  repeat first
    [ now apply within_Lit
    | match goal with
      | |- within _ param =>
          apply (within_weaken plain_unit);
          [exact plain_not_space | exact within_param]
      | |- within _ (upto4 _) => unfold upto4
      | |- within _ (Opt _) => apply within_Opt
      | |- within _ (Plus _) => apply within_Plus
      | |- within _ (Chr is_payload_unit) =>
          intros c Hc; apply plain_not_space, is_payload_unit_plain, Hc
      | |- within _ (Seq _ _) => cbn [within]; split
      | |- within _ (Alt _ _) => cbn [within]; split
      | |- within _ (Star _) => cbn [within]
      | |- within _ (Group _ _) => cbn [within]
      | |- _ /\ _ => split
      end ].
Qed.

(** The text a link match takes holds no white space. *)
Lemma PLAYGROUND_REGEX_no_space (text : jsstring) (m : MatchArray) :
  RegExp_exec PLAYGROUND_REGEX text = Some m ->
  Forall (fun c => is_space c = false) (group m 0).
Proof.
  unfold RegExp_exec. intros H.
  apply exec_from_sound in H as (before & rest & s' & Hsplit & Hs & Hm).
  destruct (spans_within not_space _ _ _ Hs within_PLAYGROUND_REGEX)
    as (t & Ha & Hp & Hall).
  cbn [ahead pos] in Ha, Hp.
  rewrite Hm. cbn [group nth_error]. rewrite Ha, (firstn_taken _ _ _ _ Hp).
  eapply Forall_impl; [|exact Hall].
  intros c Hc. unfold not_space in Hc. now apply negb_true_iff in Hc.
Qed.

(** X15.  The text a link match takes holds no white space, and its
    query, group 1, holds neither white space nor [#]. *)
Theorem PLAYGROUND_REGEX_plain (text : jsstring) (m : MatchArray) :
  RegExp_exec PLAYGROUND_REGEX text = Some m ->
  Forall (fun c => is_space c = false) (group m 0) /\
  Forall (fun c => is_space c = false /\ c <> 35%N) (group m 1).
Proof.
  intros H. split; [exact (PLAYGROUND_REGEX_no_space text m H)|].
  unfold RegExp_exec in H.
  apply exec_from_sound in H as (before & rest & s' & Hsplit & Hs & Hm).
  - cbn [source PLAYGROUND_REGEX groups] in Hs, Hm.
    do 8 (apply spans_Seq_inv in Hs as (? & _ & Hs)).
    apply spans_Seq_inv in Hs as (s9 & H9 & Hs).
    apply spans_Seq_inv in Hs as (s10 & H10 & H11).
    apply spans_Group_inv in H9 as (s9' & H9 & P9 & A9 & C9).
    pose proof (spans_caps _ _ _ H9 eq_refl) as C9'.
    destruct (spans_within plain_unit _ _ _ H9 within_query_pattern)
      as (query & Ha & Hp & Hall).
    apply spans_Lit in H10 as (A10 & P10 & C10).
    apply spans_Group_inv in H11 as (s11 & H11 & P11 & A11 & C11).
    pose proof (spans_caps _ _ _ H11 eq_refl) as C11'.
    rewrite Hm, C11, C11', C10, C9, Ha, (firstn_taken _ _ _ _ Hp).
    cbn [seq List.map capture Nat.eqb group nth_error].
    eapply Forall_impl; [|exact Hall].
    intros c Hc. unfold plain_unit in Hc.
    apply andb_prop in Hc as [Hs1 Hs2].
    apply negb_true_iff in Hs1. apply negb_true_iff in Hs2.
    apply N.eqb_neq in Hs2. now split.
Qed.

Lemma PLAYGROUND_REGEX_plain_witness :
  RegExp_exec PLAYGROUND_REGEX (js "see " ++ linkText ++ js " please")
    = Some [Some linkText; Some []; Some (js "MYewdg")] /\
  Forall (fun c => is_space c = false) linkText.
Proof.
  assert (H : RegExp_exec PLAYGROUND_REGEX (js "see " ++ linkText ++ js " please")
              = Some [Some linkText; Some []; Some (js "MYewdg")])
    by (vm_compute; reflexivity).
  split; [exact H|].
  exact (proj1 (PLAYGROUND_REGEX_plain _ _ H)).
Defined.

(** ** Scanning the channel, continued *)

Lemma hd_error_In {A : Type} (x : A) l : hd_error l = Some x -> In x l.
Proof. destruct l; [discriminate|]. intros H. injection H as ->. now left. Qed.

Lemma In_tl {A : Type} (x : A) l : In x (tl l) -> In x l.
Proof. destruct l; simpl; auto. Qed.

Lemma findCodeblockFromChannel_origin
    (channel : TextChannel) (ignoreLatest : bool) (code : jsstring) :
  findCodeblockFromChannel channel ignoreLatest = Some code ->
  code <> [] /\
  exists msg m,
    In msg (fetch 10 channel) /\ bot (author msg) = false /\
    RegExp_exec CODEBLOCK_REGEX (content msg) = Some m /\ group m 1 = code.
Proof.
  unfold findCodeblockFromChannel. cbv zeta.
  set (msgs := if ignoreLatest
               then tl (filter (fun msg => negb (bot (author msg)))
                               (fetch 10 channel))
               else filter (fun msg => negb (bot (author msg)))
                           (fetch 10 channel)).
  intros H.
  assert (Hin : In code
            (filter (fun x => negb (jsstring_eqb x []))
               (List.map (fun x => match x with
                                   | Some m => group m 1
                                   | None => []
                                   end)
                  (List.map (fun m => RegExp_exec CODEBLOCK_REGEX (content m))
                            msgs)))).
  { now apply hd_error_In. }
  apply filter_In in Hin as [Hin Hne].
  apply negb_true_iff, jsstring_eqb_neq in Hne.
  split; [exact Hne|].
  apply in_map_iff in Hin as (x & Hx & Hin).
  apply in_map_iff in Hin as (msg & Hmsg & Hin).
  assert (Hmsg' : In msg (filter (fun msg => negb (bot (author msg)))
                                 (fetch 10 channel))).
  { unfold msgs in Hin. destruct ignoreLatest; [now apply In_tl | exact Hin]. }
  apply filter_In in Hmsg' as [Hfetched Hbot].
  apply negb_true_iff in Hbot.
  destruct x as [m|]; [|congruence].
  exists msg, m. auto.
Qed.

(** X16.  A code found by [findCodeblockFromChannel] is never empty,
    and it is group 1 of the code-block match of a message that is
    among the ten newest and is not from a bot. *)
Theorem findCodeblockFromChannel_found
    (channel : TextChannel) (ignoreLatest : bool) (code : jsstring) :
  findCodeblockFromChannel channel ignoreLatest = Some code ->
  code <> [] /\
  exists msg m,
    In msg (fetch 10 channel) /\ bot (author msg) = false /\
    RegExp_exec CODEBLOCK_REGEX (content msg) = Some m /\ group m 1 = code.
Proof. apply findCodeblockFromChannel_origin. Qed.

Lemma findCodeblockFromChannel_found_witness :
  findCodeblockFromChannel [message "2" aUser (js "hi");
                            message "1" aUser fencedText] false
    = Some (js "const x = 1" ++ [LF]) /\
  js "const x = 1" ++ [LF] <> [].
Proof.
  assert (H : findCodeblockFromChannel [message "2" aUser (js "hi");
                                        message "1" aUser fencedText] false
              = Some (js "const x = 1" ++ [LF])) by (vm_compute; reflexivity).
  split; [exact H|].
  exact (proj1 (findCodeblockFromChannel_found _ _ _ H)).
Defined.

(** X17.  Only the messages of people among the ten newest count:
    what is older than the tenth message, and what bots wrote, can be
    taken away without changing the result. *)
Theorem findCodeblockFromChannel_window
    (recent older : list Message) (ignoreLatest : bool) :
  length recent = 10%nat ->
  findCodeblockFromChannel (recent ++ older) ignoreLatest =
  findCodeblockFromChannel
    (filter (fun msg => negb (bot (author msg))) recent) ignoreLatest.
Proof.
  intros Hlen. unfold findCodeblockFromChannel, fetch.
  assert (Hrecent : firstn 10 (recent ++ older) = recent).
  { rewrite firstn_app, Hlen, Nat.sub_diag, firstn_O, app_nil_r.
    apply firstn_all2. lia. }
  rewrite Hrecent.
  rewrite (firstn_all2 (n := 10)
             (filter (fun msg => negb (bot (author msg))) recent)).
  - assert (Hidem : forall l : list Message,
              filter (fun msg => negb (bot (author msg)))
                     (filter (fun msg => negb (bot (author msg))) l)
              = filter (fun msg => negb (bot (author msg))) l).
    { induction l as [|a l IH]; [reflexivity|].
      cbn [filter]. destruct (negb (bot (author a))) eqn:Ha; [|exact IH].
      cbn [filter]. now rewrite Ha, IH. }
    now rewrite Hidem.
  - rewrite <- Hlen. apply filter_length_le.
Qed.

Lemma findCodeblockFromChannel_window_witness :
  let recent := repeat (message "9" aBot fencedText) 9
                  ++ [message "1" aUser fencedText] in
  length recent = 10%nat /\
  findCodeblockFromChannel (recent ++ [message "0" aUser (js "old")]) false
    = findCodeblockFromChannel [message "1" aUser fencedText] false.
Proof.
  cbv zeta. split; [reflexivity|].
  exact (findCodeblockFromChannel_window
           (repeat (message "9" aBot fencedText) 9
              ++ [message "1" aUser fencedText])
           [message "0" aUser (js "old")] false eq_refl).
Defined.

Lemma decoded_defined (C : Compression) payload : decoded payload <> Undefined.
Proof. unfold decoded. destruct (decompressFromEncodedURIComponent payload); discriminate. Qed.

Lemma scanEmbeds_defined (C : Compression) es r :
  scanEmbeds es = Some r -> r <> Undefined.
Proof.
  induction es as [|e es IH]; [discriminate|].
  cbn [scanEmbeds]. destruct (url e) as [u|]; [|exact IH].
  destruct (RegExp_exec PLAYGROUND_REGEX u); [|exact IH].
  intros H. injection H as <-. apply decoded_defined.
Qed.

Lemma scanMessage_defined (C : Compression) msg r :
  scanMessage msg = Some r -> r <> Undefined.
Proof.
  unfold scanMessage.
  destruct (if negb (bot (author msg)) then _ else None) as [x|] eqn:Hf.
  - intros H. injection H as <-.
    destruct (negb (bot (author msg))); [|discriminate].
    destruct (RegExp_exec CODEBLOCK_REGEX (content msg)); [|discriminate].
    destruct (0 <? len (group m 1))%Z; [|discriminate].
    injection Hf as <-. discriminate.
  - destruct (RegExp_exec PLAYGROUND_REGEX (content msg)).
    + intros H. injection H as <-. apply decoded_defined.
    + apply scanEmbeds_defined.
Qed.

Lemma scanEmbeds_none (C : Compression) es :
  scanEmbeds es = None <->
  Forall (fun embed => match url embed with
                       | Some link => RegExp_exec PLAYGROUND_REGEX link = None
                       | None => True
                       end) es.
Proof.
  induction es as [|e es IH]; cbn [scanEmbeds].
  - split; [constructor | reflexivity].
  - destruct (url e) as [link|] eqn:Hurl.
    + destruct (RegExp_exec PLAYGROUND_REGEX link) eqn:Hlink.
      * split; [discriminate|]. intros Hall. inversion Hall as [|? ? He _].
        rewrite Hurl in He. congruence.
      * rewrite IH. split.
        -- intros Hall. constructor; [now rewrite Hurl | exact Hall].
        -- intros Hall. now inversion Hall.
    + rewrite IH. split.
      * intros Hall. constructor; [now rewrite Hurl | exact Hall].
      * intros Hall. now inversion Hall.
Qed.

(** The test of the length of group 1 in [findCodeFromChannel] never
    fails: a person's message with a fenced block gives its code. *)
Lemma scanMessage_fenced (C : Compression) msg m :
  bot (author msg) = false ->
  RegExp_exec CODEBLOCK_REGEX (content msg) = Some m ->
  scanMessage msg = Some (Text (group m 1)).
Proof.
  intros Hbot Hm. unfold scanMessage. rewrite Hbot, Hm. cbn [negb].
  pose proof (CODEBLOCK_REGEX_code _ _ Hm) as Hne.
  destruct (Z.ltb_spec 0 (len (group m 1))) as [|Hle]; [reflexivity|].
  exfalso. apply Hne. unfold len in Hle. destruct (group m 1); [reflexivity|].
  simpl in Hle. lia.
Qed.

(** One turn of the scan gives nothing exactly for a message with
    nothing to find. *)
Lemma scanMessage_none (C : Compression) msg :
  scanMessage msg = None <-> nothing_to_find msg.
Proof.
  unfold nothing_to_find.
  destruct (bot (author msg)) eqn:Hbot.
  - unfold scanMessage. rewrite Hbot. cbn [negb].
    destruct (RegExp_exec PLAYGROUND_REGEX (content msg)) eqn:Hlink.
    + split; [discriminate|]. intros (_ & H & _). discriminate.
    + rewrite scanEmbeds_none. split; [auto|]. now intros (_ & _ & H).
  - destruct (RegExp_exec CODEBLOCK_REGEX (content msg)) as [m|] eqn:Hm.
    + rewrite (scanMessage_fenced C msg m Hbot Hm).
      split; [discriminate|]. intros ([H|H] & _); discriminate.
    + unfold scanMessage. rewrite Hbot, Hm. cbn [negb].
      destruct (RegExp_exec PLAYGROUND_REGEX (content msg)) eqn:Hlink.
      * split; [discriminate|]. intros (_ & H & _). discriminate.
      * rewrite scanEmbeds_none. split; [auto|]. now intros (_ & _ & H).
Qed.

(** X18.  [findCodeFromChannel] returns [undefined] exactly when each
    of the ten newest messages has nothing to find: it is from a bot
    or its text holds no fenced block, its text holds no playground
    link, and no URL of its embeds holds one. *)
Theorem findCodeFromChannel_undefined (C : Compression) (channel : TextChannel) :
  findCodeFromChannel channel = Undefined <->
  Forall nothing_to_find (fetch 10 channel).
Proof.
  unfold findCodeFromChannel. generalize (fetch 10 channel) as msgs.
  induction msgs as [|msg msgs IH]; cbn [scanMessages].
  - split; [constructor | reflexivity].
  - destruct (scanMessage msg) as [r|] eqn:Hs.
    + split.
      * intros ->. now apply scanMessage_defined in Hs.
      * intros H. inversion H as [|? ? Hmsg _].
        apply (scanMessage_none C) in Hmsg. congruence.
    + rewrite IH. apply (scanMessage_none C) in Hs.
      split; [now constructor | now inversion 1].
Qed.

Lemma findCodeFromChannel_undefined_witness :
  Forall nothing_to_find [message "2" aBot fencedText;
                          message "1" aUser (js "hello")] /\
  @findCodeFromChannel plainDecoder [message "2" aBot fencedText;
                                     message "1" aUser (js "hello")]
    = Undefined.
Proof.
  assert (H : Forall nothing_to_find [message "2" aBot fencedText;
                                      message "1" aUser (js "hello")]).
  { constructor; [|constructor; [|constructor]].
    - split; [now left|]. split; [vm_compute; reflexivity | constructor].
    - split; [right; vm_compute; reflexivity|].
      split; [vm_compute; reflexivity | constructor]. }
  split; [exact H|].
  exact (proj2 (findCodeFromChannel_undefined plainDecoder
                  [message "2" aBot fencedText;
                   message "1" aUser (js "hello")]) H).
Defined.

(** X19.  A message of a person that holds a fenced block gives the
    code of the block, never empty, whatever links the message or its
    embeds hold and whatever the decompressor does. *)
Theorem findCodeFromChannel_fenced_first
    (C : Compression) (msg : Message) (m : MatchArray) (older : list Message) :
  bot (author msg) = false ->
  RegExp_exec CODEBLOCK_REGEX (content msg) = Some m ->
  findCodeFromChannel (msg :: older) = Text (group m 1) /\ group m 1 <> [].
Proof.
  intros Hbot Hm. split; [|now apply (CODEBLOCK_REGEX_code _ _ Hm)].
  unfold findCodeFromChannel, fetch. cbn [firstn scanMessages].
  now rewrite (scanMessage_fenced C msg m Hbot Hm).
Qed.

Lemma findCodeFromChannel_fenced_first_witness :
  let msg := message "1" aUser (fencedText ++ js " or " ++ linkText) in
  bot (author msg) = false /\
  @findCodeFromChannel failing [msg]
    = Text (js "const x = 1" ++ [LF]).
Proof.
  cbv zeta. split; [reflexivity|].
  assert (Hm : RegExp_exec CODEBLOCK_REGEX
                 (fencedText ++ js " or " ++ linkText)
               = Some [Some fencedText; Some (js "const x = 1" ++ [LF])])
    by (vm_compute; reflexivity).
  exact (proj1 (findCodeFromChannel_fenced_first failing
                  (message "1" aUser (fencedText ++ js " or " ++ linkText))
                  _ [] eq_refl Hm)).
Defined.

(** X20.  Where the ten newest messages hold no playground link, in
    their text or in their embeds, the two scans find the same code:
    [findCodeFromChannel] returns what [findCodeblockFromChannel]
    returns without [ignoreLatest]. *)
Theorem findCodeFromChannel_without_links
    (C : Compression) (channel : TextChannel) :
  Forall (fun msg => RegExp_exec PLAYGROUND_REGEX (content msg) = None /\
                     scanEmbeds (embeds msg) = None) (fetch 10 channel) ->
  findCodeFromChannel channel =
  match findCodeblockFromChannel channel false with
  | Some code => Text code
  | None => Undefined
  end.
Proof.
  unfold findCodeFromChannel, findCodeblockFromChannel.
  generalize (fetch 10 channel) as msgs.
  induction msgs as [|msg msgs IH]; intros Hno; [reflexivity|].
  inversion Hno as [|? ? [Hlink Hemb] Hrest]; subst.
  specialize (IH Hrest). cbn [scanMessages filter].
  destruct (bot (author msg)) eqn:Hbot; cbn [negb].
  - unfold scanMessage. rewrite Hbot, Hlink, Hemb. cbn [negb]. exact IH.
  - cbn [List.map filter].
    destruct (RegExp_exec CODEBLOCK_REGEX (content msg)) as [m|] eqn:Hm.
    + rewrite (scanMessage_fenced C msg m Hbot Hm).
      pose proof (CODEBLOCK_REGEX_code _ _ Hm) as Hne.
      apply jsstring_eqb_neq in Hne. rewrite Hne. reflexivity.
    + unfold scanMessage. rewrite Hbot, Hm, Hlink, Hemb. cbn [negb].
      rewrite jsstring_eqb_refl. cbn [negb]. exact IH.
Qed.

Lemma findCodeFromChannel_without_links_witness :
  let channel := [message "3" aBot fencedText;
                  message "2" aUser (js "hello");
                  message "1" aUser fencedText] in
  @findCodeFromChannel failing channel = Text (js "const x = 1" ++ [LF]) /\
  findCodeblockFromChannel channel false = Some (js "const x = 1" ++ [LF]).
Proof.
  cbv zeta.
  assert (Hno : Forall (fun msg =>
                  RegExp_exec PLAYGROUND_REGEX (content msg) = None /\
                  @scanEmbeds failing (embeds msg) = None)
                  (fetch 10 [message "3" aBot fencedText;
                             message "2" aUser (js "hello");
                             message "1" aUser fencedText])).
  { repeat constructor; vm_compute; reflexivity. }
  pose proof (findCodeFromChannel_without_links failing _ Hno) as H.
  assert (Hb : findCodeblockFromChannel
                 [message "3" aBot fencedText;
                  message "2" aUser (js "hello");
                  message "1" aUser fencedText] false
               = Some (js "const x = 1" ++ [LF])) by (vm_compute; reflexivity).
  rewrite Hb in H. split; [exact H | exact Hb].
Defined.

(** ** The embed, the listeners and the command *)








(** X23.  Every reply the cache refers to is a message the bot has
    sent: each of the four handlers keeps this so. *)
Theorem handlers_keep_refs_sent
    (C : Compression) (F : Formatter) (E : Encoder) (N : Network)
    (w : World) (old msg : Message) (channel : TextChannel)
    (code : option jsstring) (attachments : list MessageAttachment) :
  refs_sent w ->
  match onPlaygroundLinkMessage w msg with
  | Returned w' => refs_sent w'
  | Thrown _ => True
  end /\
  refs_sent (onLongFix w old msg) /\
  refs_sent (playground w channel msg code) /\
  match onPlaygroundLinkAttachment w msg attachments with
  | Returned w' => refs_sent w'
  | Thrown _ => True
  end.
Proof.
  intros Hw. split.
  { destruct (onPlaygroundLinkMessage w msg) as [w'|error] eqn:Hstep;
      [|exact I].
    exact (onPlaygroundLinkMessage_refs C F w msg w' Hstep Hw). }
  split; [now apply onLongFix_refs|].
  split; [now apply playground_refs|].
  destruct (onPlaygroundLinkAttachment w msg attachments) as [w'|error]
    eqn:Hstep; [|exact I].
  exact (onPlaygroundLinkAttachment_refs C F N w msg attachments w' Hstep Hw).
Qed.

Lemma handlers_keep_refs_sent_witness :
  let msg := message "2" aUser (js "look: " ++ linkText) in
  refs_sent trackingWorld /\
  exists w',
    @onPlaygroundLinkMessage plainDecoder unchanged trackingWorld msg
      = Returned w' /\
    refs_sent w' /\
    entries (editedLongLink w') = [(js "1", 0%nat); (js "2", 1%nat)].
Proof.
  cbv zeta.
  assert (Hw : refs_sent trackingWorld).
  { unfold refs_sent. repeat constructor. }
  split; [exact Hw|].
  eexists. split; [vm_compute; reflexivity|].
  match goal with |- refs_sent ?world /\ _ => set (w' := world) end.
  assert (Hstep : @onPlaygroundLinkMessage plainDecoder unchanged trackingWorld
                    (message "2" aUser (js "look: " ++ linkText)) = Returned w')
    by (vm_compute; reflexivity).
  destruct (handlers_keep_refs_sent plainDecoder unchanged
              plainEncoder shortening trackingWorld
              (message "2" aUser (js "look: " ++ linkText))
              (message "2" aUser (js "look: " ++ linkText))
              [] None [] Hw) as [Hkept _].
  rewrite Hstep in Hkept.
  split; [exact Hkept | vm_compute; reflexivity].
Defined.












Lemma no_text_find_none channel ignoreLatest :
  no_text (findCodeblockFromChannel channel ignoreLatest) = true ->
  findCodeblockFromChannel channel ignoreLatest = None.
Proof.
  destruct (findCodeblockFromChannel channel ignoreLatest) as [code|] eqn:H;
    [|reflexivity].
  destruct (findCodeblockFromChannel_origin _ _ _ H) as [Hne _].
  destruct code; [congruence | discriminate].
Qed.

(** X27.  The command always sends exactly one message and does
    nothing else.  The message is either an embed whose URL is the
    playground address followed by the compressed code, the code being
    the argument when one is given and not empty, and else the block
    found in the channel with the latest message of a person left
    out; or, when no such block is found, the warning. *)
Theorem playground_replies (E : Encoder)
    (w : World) (channel : TextChannel) (msg : Message)
    (code : option jsstring) :
  exists r,
    playground w channel msg code = sendReply w r /\
    match replyEmbed r with
    | Some embed =>
        replyContent r = [] /\
        exists text,
          text <> [] /\
          url embed = Some (PLAYGROUND_BASE
                              ++ compressToEncodedURIComponent text) /\
          (code = Some text \/
           no_text code = true /\
           findCodeblockFromChannel channel true = Some text)
    | None =>
        replyContent r = js ":warning: couldn't find a codeblock!" /\
        no_text code = true /\
        findCodeblockFromChannel channel true = None
    end.
Proof.
  unfold playground.
  destruct (no_text code) eqn:Hcode.
  - destruct (no_text (findCodeblockFromChannel channel true)) eqn:Hfound.
    + eexists; split; [reflexivity|]. cbn [replyEmbed replyContent].
      repeat split. now apply no_text_find_none.
    + eexists; split; [reflexivity|]. cbn [replyEmbed replyContent url].
      split; [reflexivity|].
      destruct (findCodeblockFromChannel channel true) as [[|c text]|];
        try discriminate.
      exists (c :: text). cbn [nullish]. repeat split; auto. discriminate.
  - eexists; split; [reflexivity|]. cbn [replyEmbed replyContent url].
    split; [reflexivity|].
    destruct code as [[|c text]|]; try discriminate.
    exists (c :: text). cbn [nullish]. repeat split; auto. discriminate.
Qed.

(** The ways the attachment listener can end, each on an example:
    nothing to do, the shortener answering without a link or with
    [null], the formatter refusing the code, and a reply. *)
Lemma onPlaygroundLinkAttachment_examples :
  let file := {| attachmentName := js "message.txt";
                 attachmentUrl := js "https://cdn.example/message.txt" |} in
  let msg := message "1" aUser [] in
  @onPlaygroundLinkAttachment plainDecoder unchanged shortening newWorld msg []
    = Returned newWorld /\
  @onPlaygroundLinkAttachment plainDecoder unchanged notShortening newWorld msg
      [file]
    = Thrown (Error (js "Received invalid api response from link shortener")) /\
  @onPlaygroundLinkAttachment plainDecoder unchanged answeringNull newWorld msg
      [file]
    = Thrown TypeError /\
  @onPlaygroundLinkAttachment plainDecoder refusing shortening newWorld msg
      [file]
    = Thrown (Error (js "SyntaxError")) /\
  match @onPlaygroundLinkAttachment plainDecoder unchanged shortening newWorld
          msg [file] with
  | Returned w' =>
      List.map replyContent (sent w') = [[]] /\ deleted w' = [js "1"]
  | Thrown _ => False
  end.
Proof.
  cbv zeta.
  split; [vm_compute; reflexivity|].
  split; [vm_compute; reflexivity|].
  split; [vm_compute; reflexivity|].
  split; [vm_compute; reflexivity|].
  vm_compute. split; reflexivity.
Qed.

(** The command on an example: the block of an earlier message is
    found and its code goes into the address. *)
Lemma playground_example :
  let channel := [message "2" aUser (js "!playground");
                  message "1" aUser fencedText] in
  List.map replyEmbed
    (sent (@playground plainEncoder newWorld channel
             (message "2" aUser (js "!playground")) None))
  = [Some {| title := Some (js "View in Playground");
             url := Some (PLAYGROUND_BASE ++ js "const x = 1" ++ [LF]);
             embedAuthor := None; footer := None; description := None |}].
Proof. cbv zeta. vm_compute. reflexivity. Qed.
